(** * Speech-to-text converter: the action layer over the job and segment tables

    A shallow embedding of [src/db/tables.ts] and [src/src/actions/index.ts].

    - The two tables are lists of rows, in insertion order.
    - A handler is a computation over a [World] (the two tables, the source
      of random UUIDs and the database clock) that either returns a value or
      throws an [ActionErrorCode].
    - The input schemas are parsers from untyped JavaScript values to the
      typed input of each handler; [defineAction] runs the parser before the
      handler, as the action framework does.

    A JavaScript number is a finite value, given exactly as a rational, or
    one of the two infinities; a number that a schema constrains with
    [.int()] is finite and is carried as a [Z].  A number column holds
    finite values only, as rationals [Q].  Products and differences of
    numbers are rounded to 53 significant bits as doubles are.  Dates are
    milliseconds since the epoch, a [Z].

    The database driver is part of the model where the actions depend on
    it: it refuses a statement parameter that is not finite, SQLite refuses
    an OFFSET or LIMIT that is not a 64-bit integer, and a read fails when a
    row it returns holds an integer that is not a safe integer.  Text is
    stored, compared and returned character for character; what the driver
    does with text that holds the NUL character is not modelled. *)

From Stdlib Require Import List String ZArith QArith Bool Lia.
From Stdlib Require Import Permutation Sorted.
Import ListNotations.

Local Open Scope string_scope.
Local Open Scope list_scope.
Local Open Scope Z_scope.
Local Close Scope Q_scope.

(** ** Rows of the two tables (db/tables.ts) *)

(** [SttJobs]: [id] is the primary key; the columns declared
    [optional: true] are nullable; [createdAt] defaults to [NOW]. *)
Record SttJob := mkSttJob {
  job_id : string;
  job_userId : string;
  job_inputAudioUrl : string;
  job_audioFormat : option string;
  job_language : option string;
  job_modelName : option string;
  job_transcriptText : option string;
  job_durationSeconds : option Q;
  job_wordCount : option Z;
  job_status : option string;
  job_errorMessage : option string;
  job_createdAt : Z;
  job_completedAt : option Z
}.

(** [SttSegments]: [id] is the primary key, [jobId] references [SttJobs.id]. *)
Record SttSegment := mkSttSegment {
  seg_id : string;
  seg_jobId : string;
  seg_orderIndex : Z;
  seg_startTimeSeconds : option Q;
  seg_endTimeSeconds : option Q;
  seg_text : string;
  seg_speakerLabel : option string;
  seg_confidence : option Q;
  seg_createdAt : Z
}.

(** ** The world a handler runs in *)

Record World := mkWorld {
  SttJobs : list SttJob;
  SttSegments : list SttSegment;
  (** the values [crypto.randomUUID()] will return, and how many were drawn *)
  uuid_source : nat -> string;
  uuid_drawn : nat;
  (** what [NOW] evaluates to *)
  clock : Z
}.

(** The codes an action can fail with.  [UNAUTHORIZED] and [NOT_FOUND] are
    thrown by the handlers; [BAD_REQUEST] is the framework's input
    validation failure; [INTERNAL_SERVER_ERROR] is how the framework reports
    any other exception, here a statement the database refuses. *)
Inductive ActionErrorCode :=
| UNAUTHORIZED
| NOT_FOUND
| BAD_REQUEST
| INTERNAL_SERVER_ERROR.

Definition Action (A : Type) : Type := World -> (ActionErrorCode + A) * World.

Definition ret {A} (a : A) : Action A := fun w => (inr a, w).

Definition throw {A} (e : ActionErrorCode) : Action A := fun w => (inl e, w).

Definition bind {A B} (c : Action A) (k : A -> Action B) : Action B :=
  fun w =>
    match c w with
    | (inr a, w') => k a w'
    | (inl e, w') => (inl e, w')
    end.

Notation "x <- c ;; k" := (bind c (fun x => k))
  (at level 61, c at next level, right associativity).
Notation "c ;;; k" := (bind c (fun _ => k))
  (at level 61, right associativity).

(** [xs.map(f)] where the callback has effects: left to right. *)
Fixpoint mapA {A B} (f : A -> Action B) (xs : list A) : Action (list B) :=
  match xs with
  | [] => ret []
  | x :: xs' => y <- f x ;; ys <- mapA f xs' ;; ret (y :: ys)
  end.

(** [a ?? b] on a nullable value. *)
Definition nullish {A} (a b : option A) : option A :=
  match a with
  | Some x => Some x
  | None => b
  end.
Notation "a ?? b" := (nullish a b) (at level 40, left associativity).

(** ** The request context *)

Record User := mkUser { user_id : string }.
Record Locals := mkLocals { user : option User }.
Record ActionAPIContext := mkContext { locals : option Locals }.

(** ** Numbers *)

Inductive number :=
| Num (q : Q)
| Infinity
| NegInfinity.

(** [Number.isInteger] on a finite number. *)
Definition is_integer (q : Q) : bool := (Qnum q mod Zpos (Qden q)) =? 0.

(** The nearest double to an integer: itself below 2^53, otherwise rounded
    to 53 significant bits, ties to the even neighbour. *)
Definition round53 (z : Z) : Z :=
  let a := Z.abs z in
  if a <? 2 ^ 53 then z
  else
    let ulp := 2 ^ (Z.log2 a - 52) in
    let q := a / ulp in
    let r := a mod ulp in
    let up :=
      if 2 * r <? ulp then false
      else if ulp <? 2 * r then true
      else Z.odd q in
    Z.sgn z * ((if up then q + 1 else q) * ulp).

(** A number as a statement parameter: the driver refuses what is not
    finite. *)
Definition param (n : number) : option Q :=
  match n with
  | Num q => Some q
  | Infinity | NegInfinity => None
  end.

Definition param_opt (o : option number) : option (option Q) :=
  match o with
  | None => Some None
  | Some n => option_map Some (param n)
  end.

(** An OFFSET or LIMIT must be a 64-bit integer: an integral parameter
    strictly between the ends of the 64-bit range is taken, any other is
    refused. *)
Definition sql_integer (z : Z) : option Z :=
  if (- 2 ^ 63 <? z) && (z <? 2 ^ 63) then Some z else None.

(** A number written to a number column is kept as an integer when it is
    integral and strictly between the ends of the 64-bit range.  The driver
    cannot hand back such an integer when it is not a safe integer, that is
    when its magnitude is 2^53 or more: the read that returns it fails. *)
Definition unreadable_integer (n : Z) : bool :=
  (2 ^ 53 <=? Z.abs n) && (Z.abs n <? 2 ^ 63).

Definition unreadable (q : Q) : bool :=
  is_integer q && unreadable_integer (Qnum q / Zpos (Qden q)).

Definition readable_opt {A} (bad : A -> bool) (o : option A) : bool :=
  match o with
  | Some a => negb (bad a)
  | None => true
  end.

Definition job_readable (j : SttJob) : bool :=
  readable_opt unreadable (job_durationSeconds j) &&
  readable_opt unreadable_integer (job_wordCount j).

Definition segment_readable (s : SttSegment) : bool :=
  negb (unreadable_integer (seg_orderIndex s)) &&
  readable_opt unreadable (seg_startTimeSeconds s) &&
  readable_opt unreadable (seg_endTimeSeconds s) &&
  readable_opt unreadable (seg_confidence s).

(** ** Primitives: random identifiers and database statements *)

Definition randomUUID : Action string :=
  fun w =>
    (inr (uuid_source w (uuid_drawn w)),
     mkWorld (SttJobs w) (SttSegments w) (uuid_source w) (S (uuid_drawn w)) (clock w)).

Definition set_SttJobs (js : list SttJob) (w : World) : World :=
  mkWorld js (SttSegments w) (uuid_source w) (uuid_drawn w) (clock w).

Definition set_SttSegments (ss : list SttSegment) (w : World) : World :=
  mkWorld (SttJobs w) ss (uuid_source w) (uuid_drawn w) (clock w).

Fixpoint distinct (ids : list string) : bool :=
  match ids with
  | [] => true
  | x :: r => negb (existsb (String.eqb x) r) && distinct r
  end.

(** [db.select().from(SttJobs).where(p).get()]: the statement fetches the
    matching rows, which fails when one of them is unreadable, and the
    first of them is returned. *)
Definition select_SttJobs_get (p : SttJob -> bool) : Action (option SttJob) :=
  fun w =>
    if forallb job_readable (filter p (SttJobs w))
    then (inr (find p (SttJobs w)), w)
    else (inl INTERNAL_SERVER_ERROR, w).

(** [db.insert(SttJobs).values(row)]: the row gets [createdAt = NOW]; the
    statement is refused when the primary key is already present. *)
Definition insert_SttJobs (values : Z -> SttJob) : Action unit :=
  fun w =>
    let row := values (clock w) in
    if existsb (fun j => String.eqb (job_id j) (job_id row)) (SttJobs w)
    then (inl INTERNAL_SERVER_ERROR, w)
    else (inr tt, set_SttJobs (SttJobs w ++ [row]) w).

(** The parameters of a statement are handed to the driver before the
    statement runs; [None] stands for parameters the driver refuses. *)
Definition bind_parameters {A} (parameters : option A) : Action A :=
  match parameters with
  | Some a => ret a
  | None => throw INTERNAL_SERVER_ERROR
  end.

(** [db.update(SttJobs).set(f).where(p)]: every matching row is rewritten. *)
Definition update_SttJobs (f : SttJob -> SttJob) (p : SttJob -> bool) : Action unit :=
  fun w =>
    (inr tt, set_SttJobs (map (fun j => if p j then f j else j) (SttJobs w)) w).

Fixpoint all_some {A} (l : list (option A)) : option (list A) :=
  match l with
  | [] => Some []
  | Some a :: r =>
      match all_some r with
      | Some l' => Some (a :: l')
      | None => None
      end
  | None :: _ => None
  end.

(** [db.insert(SttSegments).values(rows)]: one statement for the batch.  It
    is refused as a whole when [rows] is empty, when one of its parameters
    is refused ([None] below) or when a primary key would be duplicated; the
    referenced job is not checked here. *)
Definition insert_SttSegments (values : list (Z -> option SttSegment))
    : Action unit :=
  fun w =>
    match values with
    | [] => (inl INTERNAL_SERVER_ERROR, w)
    | _ =>
        match all_some (map (fun v => v (clock w)) values) with
        | None => (inl INTERNAL_SERVER_ERROR, w)
        | Some rows =>
            if distinct (map seg_id (SttSegments w ++ rows))
            then (inr tt, set_SttSegments (SttSegments w ++ rows) w)
            else (inl INTERNAL_SERVER_ERROR, w)
        end
    end.

(** [ORDER BY]: a stable insertion sort on a boolean order. *)
Section OrderBy.
Context {A : Type} (leb : A -> A -> bool).

Fixpoint insert_row (x : A) (l : list A) : list A :=
  match l with
  | [] => [x]
  | y :: r => if leb x y then x :: l else y :: insert_row x r
  end.

Definition orderBy (l : list A) : list A := fold_right insert_row [] l.
End OrderBy.

Definition asc {A} (key : A -> Z) (a b : A) : bool := key a <=? key b.
Definition desc {A} (key : A -> Z) (a b : A) : bool := key b <=? key a.

(** On a 64-bit integer [n], the only kind [select_SttJobs_page] hands on:
    [LIMIT n] keeps the first [n] rows (all of them when [n] is negative);
    [OFFSET n] drops the first [n] rows (none when [n] is negative). *)
Definition limit {A} (n : Z) (l : list A) : list A :=
  if n <? 0 then l else firstn (Z.to_nat n) l.
Definition offset {A} (n : Z) (l : list A) : list A := skipn (Z.to_nat n) l.

(** [db.select().from(SttSegments).where(p).orderBy(o).all()]: fails when
    one of the rows it returns is unreadable. *)
Definition select_SttSegments_all (p : SttSegment -> bool)
    (o : SttSegment -> SttSegment -> bool) : Action (list SttSegment) :=
  fun w =>
    let rows := orderBy o (filter p (SttSegments w)) in
    if forallb segment_readable rows
    then (inr rows, w)
    else (inl INTERNAL_SERVER_ERROR, w).

(** [db.select().from(SttJobs).where(p).orderBy(o).limit(n).offset(k).all()]:
    refused when [n] or [k] is not a 64-bit integer, and fails when one of
    the rows of the page is unreadable. *)
Definition select_SttJobs_page (p : SttJob -> bool)
    (o : SttJob -> SttJob -> bool) (n k : Z) : Action (list SttJob) :=
  fun w =>
    match sql_integer n, sql_integer k with
    | Some n, Some k =>
        let rows := limit n (offset k (orderBy o (filter p (SttJobs w)))) in
        if forallb job_readable rows
        then (inr rows, w)
        else (inl INTERNAL_SERVER_ERROR, w)
    | _, _ => (inl INTERNAL_SERVER_ERROR, w)
    end.

(** ** Input schemas (astro:schema)

    A schema is a parser from an untyped value to the handler's input.  An
    absent property of an object reads as [JUndefined].  [JNum] is a finite
    number. *)

#[warnings="-register-all"]
Inductive jsval :=
| JUndefined
| JNull
| JBool (b : bool)
| JNum (q : Q)
| JInfinity
| JNegInfinity
| JNaN
| JStr (s : string)
| JDate (t : Z)
| JArr (items : list jsval)
| JObj (fields : list (string * jsval)).

Definition schema (A : Type) : Type := jsval -> option A.

Fixpoint prop (k : string) (fields : list (string * jsval)) : jsval :=
  match fields with
  | [] => JUndefined
  | (k', v) :: r => if String.eqb k k' then v else prop k r
  end.

Definition refine {A} (check : A -> bool) (s : schema A) : schema A :=
  fun v =>
    match s v with
    | Some a => if check a then Some a else None
    | None => None
    end.

Definition z_string : schema string :=
  fun v => match v with JStr s => Some s | _ => None end.

Definition z_string_min (n : nat) : schema string :=
  refine (fun s => Nat.leb n (String.length s)) z_string.

Definition z_enum (values : list string) : schema string :=
  refine (fun s => existsb (String.eqb s) values) z_string.

(** [z.number()] accepts every number but NaN. *)
Definition z_number : schema number :=
  fun v =>
    match v with
    | JNum q => Some (Num q)
    | JInfinity => Some Infinity
    | JNegInfinity => Some NegInfinity
    | _ => None
    end.

(** [a <= n] and [n <= b] on numbers. *)
Definition num_min (a : Q) (n : number) : bool :=
  match n with
  | Num q => Qle_bool a q
  | Infinity => true
  | NegInfinity => false
  end.

Definition num_max (b : Q) (n : number) : bool :=
  match n with
  | Num q => Qle_bool q b
  | Infinity => false
  | NegInfinity => true
  end.

Definition nonnegative : number -> bool := num_min (0 # 1).

(** [z.number().int()]: only a finite integer passes, and it is handed on
    as a [Z].  The schemas do not add [.safe()]: an integer of any
    magnitude passes, also one that a number column cannot give back
    ([unreadable_integer]). *)
Definition z_number_int : schema Z :=
  fun v =>
    match v with
    | JNum q => if is_integer q then Some (Qnum q / Zpos (Qden q)) else None
    | _ => None
    end.

Definition z_date : schema Z :=
  fun v => match v with JDate t => Some t | _ => None end.

Definition optional {A} (s : schema A) : schema (option A) :=
  fun v =>
    match v with
    | JUndefined => Some None
    | _ => option_map Some (s v)
    end.

Definition default {A} (d : A) (s : schema A) : schema A :=
  fun v =>
    match v with
    | JUndefined => Some d
    | _ => s v
    end.

Fixpoint parse_all {A} (s : schema A) (items : list jsval) : option (list A) :=
  match items with
  | [] => Some []
  | v :: r =>
      match s v, parse_all s r with
      | Some a, Some l => Some (a :: l)
      | _, _ => None
      end
  end.

Definition z_array {A} (s : schema A) : schema (list A) :=
  fun v => match v with JArr items => parse_all s items | _ => None end.

Definition z_array_min {A} (n : nat) (s : schema A) : schema (list A) :=
  refine (fun l => Nat.leb n (List.length l)) (z_array s).

Notation "x <-? c ;; k" :=
  (match c with Some x => k | None => None end)
  (at level 61, c at next level, right associativity).

(** The typed inputs of the five handlers. *)

Record CreateInput := mkCreateInput {
  c_inputAudioUrl : string;
  c_audioFormat : option string;
  c_language : option string;
  c_modelName : option string
}.

Record UpdateInput := mkUpdateInput {
  u_id : string;
  u_status : option string;
  u_transcriptText : option string;
  u_errorMessage : option string;
  u_durationSeconds : option number;
  u_wordCount : option Z;
  u_completedAt : option Z
}.

Record SegmentInput := mkSegmentInput {
  s_orderIndex : Z;
  s_text : string;
  s_startTimeSeconds : option number;
  s_endTimeSeconds : option number;
  s_speakerLabel : option string;
  s_confidence : option number
}.

Record AddSegmentsInput := mkAddSegmentsInput {
  a_jobId : string;
  a_segments : list SegmentInput
}.

Record GetInput := mkGetInput { g_id : string }.

Record ListInput := mkListInput {
  l_page : Z;
  l_pageSize : Z
}.

Definition statuses : list string :=
  ["queued"; "processing"; "completed"; "failed"].

Section Schemas.
(** [z.string().url()] accepts the strings the platform's URL parser
    accepts; that parser is a parameter. *)
Variable is_url : string -> bool.

Definition createSttJob_input : schema CreateInput :=
  fun v =>
    match v with
    | JObj o =>
        inputAudioUrl <-? refine is_url z_string (prop "inputAudioUrl" o) ;;
        audioFormat <-? optional z_string (prop "audioFormat" o) ;;
        language <-? optional z_string (prop "language" o) ;;
        modelName <-? optional z_string (prop "modelName" o) ;;
        Some (mkCreateInput inputAudioUrl audioFormat language modelName)
    | _ => None
    end.
End Schemas.

Definition updateSttJob_input : schema UpdateInput :=
  fun v =>
    match v with
    | JObj o =>
        id <-? z_string (prop "id" o) ;;
        status <-? optional (z_enum statuses) (prop "status" o) ;;
        transcriptText <-? optional z_string (prop "transcriptText" o) ;;
        errorMessage <-? optional z_string (prop "errorMessage" o) ;;
        durationSeconds <-?
          optional (refine nonnegative z_number) (prop "durationSeconds" o) ;;
        wordCount <-?
          optional (refine (Z.leb 0) z_number_int) (prop "wordCount" o) ;;
        completedAt <-? optional z_date (prop "completedAt" o) ;;
        Some (mkUpdateInput id status transcriptText errorMessage
                durationSeconds wordCount completedAt)
    | _ => None
    end.

Definition segment_input : schema SegmentInput :=
  fun v =>
    match v with
    | JObj o =>
        orderIndex <-? refine (Z.ltb 0) z_number_int (prop "orderIndex" o) ;;
        text <-? z_string_min 1 (prop "text" o) ;;
        startTimeSeconds <-?
          optional (refine nonnegative z_number) (prop "startTimeSeconds" o) ;;
        endTimeSeconds <-?
          optional (refine nonnegative z_number) (prop "endTimeSeconds" o) ;;
        speakerLabel <-? optional z_string (prop "speakerLabel" o) ;;
        confidence <-?
          optional (refine (num_max (1 # 1)) (refine (num_min (0 # 1)) z_number))
            (prop "confidence" o) ;;
        Some (mkSegmentInput orderIndex text startTimeSeconds endTimeSeconds
                speakerLabel confidence)
    | _ => None
    end.

Definition addSttSegments_input : schema AddSegmentsInput :=
  fun v =>
    match v with
    | JObj o =>
        jobId <-? z_string (prop "jobId" o) ;;
        segments <-? z_array_min 1 segment_input (prop "segments" o) ;;
        Some (mkAddSegmentsInput jobId segments)
    | _ => None
    end.

Definition getSttJobWithSegments_input : schema GetInput :=
  fun v =>
    match v with
    | JObj o => id <-? z_string (prop "id" o) ;; Some (mkGetInput id)
    | _ => None
    end.

Definition listMySttJobs_input : schema ListInput :=
  fun v =>
    match v with
    | JObj o =>
        page <-? default 1 (refine (Z.ltb 0) z_number_int) (prop "page" o) ;;
        pageSize <-?
          default 20 (refine (fun n => n <=? 100) (refine (Z.ltb 0) z_number_int))
            (prop "pageSize" o) ;;
        Some (mkListInput page pageSize)
    | _ => None
    end.

(** ** The actions (src/actions/index.ts) *)

(** [defineAction({ input, handler })]: the raw input is parsed with the
    schema, a parse failure is reported without calling the handler. *)
Definition defineAction {I O} (input : schema I)
    (handler : I -> ActionAPIContext -> Action O)
    : jsval -> ActionAPIContext -> Action O :=
  fun raw context =>
    match input raw with
    | Some i => handler i context
    | None => throw BAD_REQUEST
    end.

(** [context.locals?.user] *)
Definition locals_user (context : ActionAPIContext) : option User :=
  match locals context with
  | Some l => user l
  | None => None
  end.

Definition requireUser (context : ActionAPIContext) : Action User :=
  match locals_user context with
  | None => throw UNAUTHORIZED
  | Some user => ret user
  end.

(** [and(eq(SttJobs.id, id), eq(SttJobs.userId, userId))] *)
Definition owned_by (id userId : string) (j : SttJob) : bool :=
  String.eqb (job_id j) id && String.eqb (job_userId j) userId.

(** The row inserted for a new job: the columns the handler does not name
    are null, and the database fills in [createdAt]. *)
Definition job_values (jobId : string) (user : User) (input : CreateInput)
    (now : Z) : SttJob :=
  {| job_id := jobId;
     job_userId := user_id user;
     job_inputAudioUrl := c_inputAudioUrl input;
     job_audioFormat := c_audioFormat input;
     job_language := c_language input;
     job_modelName := c_modelName input;
     job_transcriptText := None;
     job_durationSeconds := None;
     job_wordCount := None;
     job_status := Some "queued";
     job_errorMessage := None;
     job_createdAt := now;
     job_completedAt := None |}.

Definition createSttJob_handler (input : CreateInput) (context : ActionAPIContext)
    : Action string :=
  user <- requireUser context ;;
  jobId <- randomUUID ;;
  insert_SttJobs (job_values jobId user input) ;;;
  ret jobId.

(** The six values an update writes; the job's own duration is a finite
    number. *)
Record UpdateFields := mkUpdateFields {
  f_status : option string;
  f_transcriptText : option string;
  f_errorMessage : option string;
  f_durationSeconds : option number;
  f_wordCount : option Z;
  f_completedAt : option Z
}.

Definition fieldsToUpdate (input : UpdateInput) (job : SttJob) : UpdateFields :=
  {| f_status := u_status input ?? job_status job;
     f_transcriptText := u_transcriptText input ?? job_transcriptText job;
     f_errorMessage := u_errorMessage input ?? job_errorMessage job;
     f_durationSeconds :=
       u_durationSeconds input ?? option_map Num (job_durationSeconds job);
     f_wordCount := u_wordCount input ?? job_wordCount job;
     f_completedAt := u_completedAt input ?? job_completedAt job |}.

(** The six columns as stored. *)
Record StoredFields := mkStoredFields {
  t_status : option string;
  t_transcriptText : option string;
  t_errorMessage : option string;
  t_durationSeconds : option Q;
  t_wordCount : option Z;
  t_completedAt : option Z
}.

(** The parameters of [.set(fields)]: refused when the duration is not
    finite. *)
Definition stored_fields (fields : UpdateFields) : option StoredFields :=
  durationSeconds <-? param_opt (f_durationSeconds fields) ;;
  Some {| t_status := f_status fields;
          t_transcriptText := f_transcriptText fields;
          t_errorMessage := f_errorMessage fields;
          t_durationSeconds := durationSeconds;
          t_wordCount := f_wordCount fields;
          t_completedAt := f_completedAt fields |}.

(** [.set(fields)] on one row. *)
Definition set_fields (fields : StoredFields) (j : SttJob) : SttJob :=
  {| job_id := job_id j;
     job_userId := job_userId j;
     job_inputAudioUrl := job_inputAudioUrl j;
     job_audioFormat := job_audioFormat j;
     job_language := job_language j;
     job_modelName := job_modelName j;
     job_transcriptText := t_transcriptText fields;
     job_durationSeconds := t_durationSeconds fields;
     job_wordCount := t_wordCount fields;
     job_status := t_status fields;
     job_errorMessage := t_errorMessage fields;
     job_createdAt := job_createdAt j;
     job_completedAt := t_completedAt fields |}.

Definition updateSttJob_handler (input : UpdateInput) (context : ActionAPIContext)
    : Action string :=
  user <- requireUser context ;;
  found <- select_SttJobs_get (owned_by (u_id input) (user_id user)) ;;
  match found with
  | None => throw NOT_FOUND
  | Some job =>
      fields <- bind_parameters (stored_fields (fieldsToUpdate input job)) ;;
      update_SttJobs (set_fields fields)
        (fun j => String.eqb (job_id j) (job_id job)) ;;;
      ret (job_id job)
  end.

(** The row inserted for one segment of the input; the database fills in
    [createdAt].  [None] when the driver refuses one of the numbers. *)
Definition segment_values (id jobId : string) (segment : SegmentInput)
    (now : Z) : option SttSegment :=
  startTimeSeconds <-? param_opt (s_startTimeSeconds segment) ;;
  endTimeSeconds <-? param_opt (s_endTimeSeconds segment) ;;
  confidence <-? param_opt (s_confidence segment) ;;
  Some {| seg_id := id;
          seg_jobId := jobId;
          seg_orderIndex := s_orderIndex segment;
          seg_startTimeSeconds := startTimeSeconds;
          seg_endTimeSeconds := endTimeSeconds;
          seg_text := s_text segment;
          seg_speakerLabel := s_speakerLabel segment;
          seg_confidence := confidence;
          seg_createdAt := now |}.

Definition addSttSegments_handler (input : AddSegmentsInput)
    (context : ActionAPIContext) : Action nat :=
  user <- requireUser context ;;
  found <- select_SttJobs_get (owned_by (a_jobId input) (user_id user)) ;;
  match found with
  | None => throw NOT_FOUND
  | Some job =>
      values <- mapA (fun segment =>
        id <- randomUUID ;;
        ret (segment_values id (a_jobId input) segment)) (a_segments input) ;;
      insert_SttSegments values ;;;
      ret (List.length values)
  end.

Definition getSttJobWithSegments_handler (input : GetInput)
    (context : ActionAPIContext) : Action (SttJob * list SttSegment) :=
  user <- requireUser context ;;
  found <- select_SttJobs_get (owned_by (g_id input) (user_id user)) ;;
  match found with
  | None => throw NOT_FOUND
  | Some job =>
      segments <- select_SttSegments_all
        (fun s => String.eqb (seg_jobId s) (job_id job)) (asc seg_orderIndex) ;;
      ret (job, segments)
  end.

(** The data of a page: [items] and [total].  The offset of l.189 is
    computed in doubles: the difference and the product are each rounded. *)
Definition listMySttJobs_handler (input : ListInput) (context : ActionAPIContext)
    : Action (list SttJob * nat) :=
  user <- requireUser context ;;
  let offset := round53 (round53 (l_page input - 1) * l_pageSize input) in
  items <- select_SttJobs_page
    (fun j => String.eqb (job_userId j) (user_id user)) (desc job_createdAt)
    (l_pageSize input) offset ;;
  ret (items, List.length items).

Definition createSttJob (is_url : string -> bool) :=
  defineAction (createSttJob_input is_url) createSttJob_handler.
Definition updateSttJob := defineAction updateSttJob_input updateSttJob_handler.
Definition addSttSegments := defineAction addSttSegments_input addSttSegments_handler.
Definition getSttJobWithSegments :=
  defineAction getSttJobWithSegments_input getSttJobWithSegments_handler.
Definition listMySttJobs := defineAction listMySttJobs_input listMySttJobs_handler.

(** The world after [k] more UUIDs were drawn. *)
Definition drawn (k : nat) (w : World) : World :=
  mkWorld (SttJobs w) (SttSegments w) (uuid_source w) (k + uuid_drawn w) (clock w).

(** The value builders [addSttSegments] maps its input to when the next
    UUID to draw is number [n]: segment [i] of the input gets UUID [n + i]. *)
Fixpoint draw_values (src : nat -> string) (n : nat) (jobId : string)
    (segments : list SegmentInput) : list (Z -> option SttSegment) :=
  match segments with
  | [] => []
  | segment :: r =>
      segment_values (src n) jobId segment :: draw_values src (S n) jobId r
  end.

(** The ownership lookup of Update Job, Append Segments and Get Job With
    Segments, as a function of the Job table. *)
Definition lookup (id userId : string) (jobs : list SttJob)
    : ActionErrorCode + SttJob :=
  if forallb job_readable (filter (owned_by id userId) jobs)
  then match find (owned_by id userId) jobs with
       | Some job => inr job
       | None => inl NOT_FOUND
       end
  else inl INTERNAL_SERVER_ERROR.

(** ** Conditions on stored and supplied values *)

(** Text without the NUL character. *)
Fixpoint nul_free (s : string) : bool :=
  match s with
  | EmptyString => true
  | String c r => negb (Ascii.eqb c Ascii.zero) && nul_free r
  end.

Definition nul_free_opt (o : option string) : bool :=
  match o with
  | Some s => nul_free s
  | None => true
  end.

Definition job_text_clean (j : SttJob) : bool :=
  nul_free (job_id j) && nul_free (job_userId j) &&
  nul_free (job_inputAudioUrl j) && nul_free_opt (job_audioFormat j) &&
  nul_free_opt (job_language j) && nul_free_opt (job_modelName j) &&
  nul_free_opt (job_transcriptText j) && nul_free_opt (job_status j) &&
  nul_free_opt (job_errorMessage j).

Definition segment_text_clean (s : SttSegment) : bool :=
  nul_free (seg_id s) && nul_free (seg_jobId s) && nul_free (seg_text s) &&
  nul_free_opt (seg_speakerLabel s).

(** A supplied number that the driver takes and that can be read back. *)
Definition storable (n : number) : bool :=
  match n with
  | Num q => negb (unreadable q)
  | Infinity | NegInfinity => false
  end.

Definition storable_opt (o : option number) : bool :=
  match o with
  | Some n => storable n
  | None => true
  end.

(** An update input whose numbers can be stored and read back and whose
    text has no NUL character. *)
Definition update_input_clean (input : UpdateInput) : bool :=
  storable_opt (u_durationSeconds input) &&
  readable_opt unreadable_integer (u_wordCount input) &&
  nul_free_opt (u_status input) && nul_free_opt (u_transcriptText input) &&
  nul_free_opt (u_errorMessage input).

(** A segment descriptor whose numbers can be stored and read back and
    whose text has no NUL character. *)
Definition descriptor_clean (d : SegmentInput) : bool :=
  negb (unreadable_integer (s_orderIndex d)) &&
  storable_opt (s_startTimeSeconds d) && storable_opt (s_endTimeSeconds d) &&
  storable_opt (s_confidence d) &&
  nul_free (s_text d) && nul_free_opt (s_speakerLabel d).

(** ** Requests against a running system *)

Inductive request :=
| CreateSttJob (raw : jsval)
| UpdateSttJob (raw : jsval)
| AddSttSegments (raw : jsval)
| GetSttJobWithSegments (raw : jsval)
| ListMySttJobs (raw : jsval).

(** The world after a request was served, whatever its outcome. *)
Definition serve (is_url : string -> bool) (r : request)
    (context : ActionAPIContext) (w : World) : World :=
  match r with
  | CreateSttJob raw => snd (createSttJob is_url raw context w)
  | UpdateSttJob raw => snd (updateSttJob raw context w)
  | AddSttSegments raw => snd (addSttSegments raw context w)
  | GetSttJobWithSegments raw => snd (getSttJobWithSegments raw context w)
  | ListMySttJobs raw => snd (listMySttJobs raw context w)
  end.

(** The worlds that arise from empty tables by serving requests, while the
    clock moves freely between them. *)
Inductive reachable (is_url : string -> bool) : World -> Prop :=
| reachable_empty : forall src n now,
    reachable is_url (mkWorld [] [] src n now)
| reachable_serve : forall r context w,
    reachable is_url w -> reachable is_url (serve is_url r context w)
| reachable_tick : forall w now,
    reachable is_url w ->
    reachable is_url
      (mkWorld (SttJobs w) (SttSegments w) (uuid_source w) (uuid_drawn w) now).

(** Example contexts, worlds and inputs used to exercise the theorems. *)
Module Examples.
Definition any_url : string -> bool := fun _ => true.

Definition alice : ActionAPIContext :=
  mkContext (Some (mkLocals (Some (mkUser "alice")))).
Definition bob : ActionAPIContext :=
  mkContext (Some (mkLocals (Some (mkUser "bob")))).
Definition signed_out : ActionAPIContext := mkContext (Some (mkLocals None)).

Definition uuids (n : nat) : string :=
  String.append "uuid-" (String (Ascii.ascii_of_nat (48 + n)) "").

Definition empty_world : World := mkWorld [] [] uuids 0 1000.

Definition create_raw : jsval :=
  JObj [("inputAudioUrl", JStr "https://x/a.mp3")].

(** after alice created one job, ["uuid-0"] *)
Definition w1 : World :=
  serve any_url (CreateSttJob create_raw) alice empty_world.

(** the row of that job *)
Definition job0 : SttJob :=
  {| job_id := "uuid-0";
     job_userId := "alice";
     job_inputAudioUrl := "https://x/a.mp3";
     job_audioFormat := None;
     job_language := None;
     job_modelName := None;
     job_transcriptText := None;
     job_durationSeconds := None;
     job_wordCount := None;
     job_status := Some "queued";
     job_errorMessage := None;
     job_createdAt := 1000;
     job_completedAt := None |}.

(** after alice stored a transcript on it *)
Definition w1_transcribed : World :=
  serve any_url
    (UpdateSttJob (JObj [("id", JStr "uuid-0");
                         ("transcriptText", JStr "hello world");
                         ("wordCount", JNum (2 # 1))]))
    alice w1.

Definition job0_transcribed : SttJob :=
  {| job_id := "uuid-0";
     job_userId := "alice";
     job_inputAudioUrl := "https://x/a.mp3";
     job_audioFormat := None;
     job_language := None;
     job_modelName := None;
     job_transcriptText := Some "hello world";
     job_durationSeconds := None;
     job_wordCount := Some 2;
     job_status := Some "queued";
     job_errorMessage := None;
     job_createdAt := 1000;
     job_completedAt := None |}.

Definition segment_raw (i : Z) (text : string) : jsval :=
  JObj [("orderIndex", JNum (i # 1)); ("text", JStr text)].

Definition add_raw : jsval :=
  JObj [("jobId", JStr "uuid-0");
        ("segments", JArr [segment_raw 2 "world"; segment_raw 1 "hello"])].

(** after alice appended two segments, with order indices 2 and 1 *)
Definition w2 : World := serve any_url (AddSttSegments add_raw) alice w1.

(** the first row of the Segment table of [w2] *)
Definition segment_world : SttSegment :=
  {| seg_id := "uuid-1";
     seg_jobId := "uuid-0";
     seg_orderIndex := 2;
     seg_startTimeSeconds := None;
     seg_endTimeSeconds := None;
     seg_text := "world";
     seg_speakerLabel := None;
     seg_confidence := None;
     seg_createdAt := 1000 |}.

(** after alice created a second job, at a later time *)
Definition w3 : World :=
  serve any_url (CreateSttJob create_raw) alice
    (mkWorld (SttJobs w2) (SttSegments w2) (uuid_source w2) (uuid_drawn w2)
       2000).

(** 2^53, the least positive integer that is not a safe integer *)
Definition unsafe : Z := 9007199254740992.

(** alice appends a segment whose order index is 2^53 *)
Definition add_unsafe_raw : jsval :=
  JObj [("jobId", JStr "uuid-0");
        ("segments", JArr [segment_raw unsafe "late"])].

Definition w1_unsafe : World :=
  serve any_url (AddSttSegments add_unsafe_raw) alice w1.

(** a segment that starts at Infinity *)
Definition add_infinite_raw : jsval :=
  JObj [("jobId", JStr "uuid-0");
        ("segments",
         JArr [JObj [("orderIndex", JNum (1 # 1)); ("text", JStr "never");
                     ("startTimeSeconds", JInfinity)]])].

(** page 10^17 in pages of 100 *)
Definition far_page_raw : jsval :=
  JObj [("page", JNum (100000000000000000 # 1));
        ("pageSize", JNum (100 # 1))].
End Examples.

(** * Properties *)

(** ** The monad and the primitives *)

Lemma bind_ret {A B} (a : A) (k : A -> Action B) (w : World) :
  bind (ret a) k w = k a w.
Proof. reflexivity. Qed.

Lemma bind_throw {A B} (e : ActionErrorCode) (k : A -> Action B) (w : World) :
  bind (throw e) k w = (inl e, w).
Proof. reflexivity. Qed.

Lemma defineAction_parsed {I O} (input : schema I)
    (handler : I -> ActionAPIContext -> Action O) raw i context w :
  input raw = Some i ->
  defineAction input handler raw context w = handler i context w.
Proof. unfold defineAction. now intros ->. Qed.

Lemma defineAction_rejected {I O} (input : schema I)
    (handler : I -> ActionAPIContext -> Action O) raw context w :
  input raw = None ->
  defineAction input handler raw context w = (inl BAD_REQUEST, w).
Proof. unfold defineAction. now intros ->. Qed.

Lemma requireUser_signed_out context w :
  locals_user context = None -> requireUser context w = (inl UNAUTHORIZED, w).
Proof. unfold requireUser. now intros ->. Qed.

Lemma requireUser_signed_in context u w :
  locals_user context = Some u -> requireUser context w = (inr u, w).
Proof. unfold requireUser. now intros ->. Qed.

Lemma owned_by_true id userId j :
  owned_by id userId j = true <-> job_id j = id /\ job_userId j = userId.
Proof.
  unfold owned_by. rewrite andb_true_iff, !String.eqb_eq. tauto.
Qed.

Lemma find_none_iff {A} (p : A -> bool) (l : list A) :
  find p l = None <-> forall x, In x l -> p x = false.
Proof.
  split.
  - intros H x Hx. exact (find_none p l H x Hx).
  - induction l as [|a l IH]; simpl; intros H; [reflexivity|].
    rewrite (H a (or_introl eq_refl)). apply IH. intros x Hx. apply H. now right.
Qed.

(** Under the primary key, the ownership lookup returns the owned row. *)
Lemma find_owned (jobs : list SttJob) (job : SttJob) :
  NoDup (map job_id jobs) -> In job jobs ->
  find (owned_by (job_id job) (job_userId job)) jobs = Some job.
Proof.
  induction jobs as [|j jobs IH]; simpl; intros Hnd Hin; [contradiction|].
  inversion Hnd as [|x l Hnotin Hnd']; subst.
  destruct Hin as [->|Hin].
  - replace (owned_by (job_id job) (job_userId job) job) with true; [reflexivity|].
    symmetry. now apply owned_by_true.
  - destruct (owned_by (job_id job) (job_userId job) j) eqn:E.
    + apply owned_by_true in E. destruct E as [E _].
      exfalso. apply Hnotin. rewrite E. now apply in_map.
    + now apply IH.
Qed.

Lemma filter_none {A} (p : A -> bool) (l : list A) :
  (forall x, In x l -> p x = false) -> filter p l = [].
Proof.
  induction l as [|x l IH]; simpl; intros H; [reflexivity|].
  rewrite (H x (or_introl eq_refl)). apply IH. intros y Hy. apply H. now right.
Qed.

Lemma filter_all {A} (p : A -> bool) (l : list A) :
  (forall x, In x l -> p x = true) -> filter p l = l.
Proof.
  induction l as [|x l IH]; simpl; intros H; [reflexivity|].
  rewrite (H x (or_introl eq_refl)). f_equal. apply IH.
  intros y Hy. apply H. now right.
Qed.

Lemma NoDup_map_In_eq {A B} (f : A -> B) (l : list A) x y :
  NoDup (map f l) -> In x l -> In y l -> f x = f y -> x = y.
Proof.
  induction l as [|a l IH]; simpl; intros Hnd Hx Hy Hf; [contradiction|].
  inversion Hnd as [|b l' Hnotin Hnd']; subst.
  destruct Hx as [->|Hx], Hy as [->|Hy]; trivial.
  - elim Hnotin. rewrite Hf. now apply in_map.
  - elim Hnotin. rewrite <- Hf. now apply in_map.
  - now apply IH.
Qed.

(** ** The ownership lookup *)

Lemma lookup_not_owned id userId jobs :
  (forall j, In j jobs -> ~ (job_id j = id /\ job_userId j = userId)) ->
  lookup id userId jobs = inl NOT_FOUND.
Proof.
  intros H.
  assert (Hfalse : forall j, In j jobs -> owned_by id userId j = false).
  { intros j Hj. destruct (owned_by id userId j) eqn:E; [|reflexivity].
    apply owned_by_true in E. now elim (H j Hj). }
  unfold lookup. rewrite (filter_none _ _ Hfalse). cbn.
  now rewrite (proj2 (find_none_iff _ _) Hfalse).
Qed.

Lemma lookup_found id userId jobs job :
  lookup id userId jobs = inr job ->
  find (owned_by id userId) jobs = Some job /\
  In job jobs /\ job_id job = id /\ job_userId job = userId /\
  job_readable job = true.
Proof.
  unfold lookup.
  destruct (forallb job_readable (filter (owned_by id userId) jobs)) eqn:Hall;
    [|discriminate].
  destruct (find (owned_by id userId) jobs) as [j|] eqn:Hfind; [|discriminate].
  intros [= <-]. split; [reflexivity|].
  pose proof (find_some _ _ Hfind) as [Hin Hown].
  pose proof Hown as Hown'. apply owned_by_true in Hown'.
  destruct Hown' as [Hid Huser]. repeat split; trivial.
  rewrite forallb_forall in Hall. apply Hall. apply filter_In. now split.
Qed.

(** Under the primary key the lookup of an owned, readable row succeeds
    with that row. *)
Lemma lookup_owned jobs job :
  NoDup (map job_id jobs) -> In job jobs -> job_readable job = true ->
  lookup (job_id job) (job_userId job) jobs = inr job.
Proof.
  intros Hnd Hin Hread. unfold lookup.
  rewrite (find_owned _ _ Hnd Hin).
  replace (forallb job_readable _) with true; [reflexivity|].
  symmetry. apply forallb_forall. intros j Hj. apply filter_In in Hj.
  destruct Hj as [Hj Hown]. apply owned_by_true in Hown.
  destruct Hown as [Hid _].
  now rewrite (NoDup_map_In_eq job_id _ _ _ Hnd Hj Hin Hid).
Qed.


Lemma select_SttJobs_get_lookup id userId w :
  select_SttJobs_get (owned_by id userId) w =
    match lookup id userId (SttJobs w) with
    | inr job => (inr (Some job), w)
    | inl NOT_FOUND => (inr None, w)
    | inl e => (inl e, w)
    end.
Proof.
  unfold select_SttJobs_get, lookup.
  destruct (forallb job_readable _); [|reflexivity].
  now destruct (find _ (SttJobs w)).
Qed.

(** ** Signed-out requests *)

Section SignedOut.
Variables (context : ActionAPIContext) (w : World).
Hypothesis signed_out : locals_user context = None.

Lemma createSttJob_handler_signed_out input :
  createSttJob_handler input context w = (inl UNAUTHORIZED, w).
Proof.
  unfold createSttJob_handler, bind. now rewrite requireUser_signed_out.
Qed.

Lemma updateSttJob_handler_signed_out input :
  updateSttJob_handler input context w = (inl UNAUTHORIZED, w).
Proof.
  unfold updateSttJob_handler, bind. now rewrite requireUser_signed_out.
Qed.

Lemma addSttSegments_handler_signed_out input :
  addSttSegments_handler input context w = (inl UNAUTHORIZED, w).
Proof.
  unfold addSttSegments_handler, bind. now rewrite requireUser_signed_out.
Qed.

Lemma getSttJobWithSegments_handler_signed_out input :
  getSttJobWithSegments_handler input context w = (inl UNAUTHORIZED, w).
Proof.
  unfold getSttJobWithSegments_handler, bind.
  now rewrite requireUser_signed_out.
Qed.

Lemma listMySttJobs_handler_signed_out input :
  listMySttJobs_handler input context w = (inl UNAUTHORIZED, w).
Proof.
  unfold listMySttJobs_handler, bind. now rewrite requireUser_signed_out.
Qed.
End SignedOut.

(** C3, as stated, fails: a signed-out request whose input does not pass the
    schema is answered with the validation failure, not with UNAUTHORIZED,
    because the schema runs before the handler and so before [requireUser].
    Here a signed-out Update Job request carries the status ["bogus"]. *)
Lemma signed_out_malformed_update_is_bad_request :
  let raw := JObj [("id", JStr "uuid-0"); ("status", JStr "bogus")] in
  locals_user Examples.signed_out = None /\
  updateSttJob raw Examples.signed_out Examples.w1
    = (inl BAD_REQUEST, Examples.w1) /\
  fst (updateSttJob raw Examples.signed_out Examples.w1) <> inl UNAUTHORIZED.
Proof.
  cbv zeta. split; [reflexivity|].
  split; [reflexivity|]. vm_compute. discriminate.
Qed.

(** C3 (amended): in each of the five operations, when the request context
    holds no authenticated user and the input passes the operation's schema,
    the operation fails with UNAUTHORIZED and the world (both tables, the
    UUID source and the clock) is left as it was.  The outcome is the same
    for every content of the tables, so the check comes before the ownership
    lookup and before every database statement. *)
Theorem unauthorized_before_handler_logic :
  forall is_url context w,
    locals_user context = None ->
    (forall raw input, createSttJob_input is_url raw = Some input ->
       createSttJob is_url raw context w = (inl UNAUTHORIZED, w)) /\
    (forall raw input, updateSttJob_input raw = Some input ->
       updateSttJob raw context w = (inl UNAUTHORIZED, w)) /\
    (forall raw input, addSttSegments_input raw = Some input ->
       addSttSegments raw context w = (inl UNAUTHORIZED, w)) /\
    (forall raw input, getSttJobWithSegments_input raw = Some input ->
       getSttJobWithSegments raw context w = (inl UNAUTHORIZED, w)) /\
    (forall raw input, listMySttJobs_input raw = Some input ->
       listMySttJobs raw context w = (inl UNAUTHORIZED, w)).
Proof.
  intros is_url context w Hout.
  unfold createSttJob, updateSttJob, addSttSegments, getSttJobWithSegments,
    listMySttJobs.
  repeat split; intros raw input Hparse;
    rewrite (defineAction_parsed _ _ _ _ _ _ Hparse).
  - now apply createSttJob_handler_signed_out.
  - now apply updateSttJob_handler_signed_out.
  - now apply addSttSegments_handler_signed_out.
  - now apply getSttJobWithSegments_handler_signed_out.
  - now apply listMySttJobs_handler_signed_out.
Qed.

Lemma unauthorized_before_handler_logic_witness :
  locals_user Examples.signed_out = None /\
  updateSttJob (JObj [("id", JStr "uuid-0"); ("status", JStr "failed")])
    Examples.signed_out Examples.w1 = (inl UNAUTHORIZED, Examples.w1).
Proof.
  split; [reflexivity|].
  exact (proj1 (proj2 (unauthorized_before_handler_logic
           Examples.any_url Examples.signed_out Examples.w1 eq_refl))
         (JObj [("id", JStr "uuid-0"); ("status", JStr "failed")])
         _ eq_refl).
Defined.

(** ** Ownership *)

Section SignedIn.
Variables (context : ActionAPIContext) (u : User) (w : World).
Hypothesis signed_in : locals_user context = Some u.

Lemma updateSttJob_handler_lookup input :
  updateSttJob_handler input context w =
    match lookup (u_id input) (user_id u) (SttJobs w) with
    | inl e => (inl e, w)
    | inr job =>
        match stored_fields (fieldsToUpdate input job) with
        | None => (inl INTERNAL_SERVER_ERROR, w)
        | Some fields =>
            (inr (job_id job),
             set_SttJobs
               (map (fun j => if String.eqb (job_id j) (job_id job)
                              then set_fields fields j
                              else j) (SttJobs w)) w)
        end
    end.
Proof.
  unfold updateSttJob_handler. unfold bind at 1.
  rewrite (requireUser_signed_in _ _ _ signed_in). unfold bind at 1.
  rewrite select_SttJobs_get_lookup.
  destruct (lookup _ _ _) as [[]|job]; try reflexivity.
  unfold bind, bind_parameters.
  now destruct (stored_fields _).
Qed.

Lemma getSttJobWithSegments_handler_lookup input :
  getSttJobWithSegments_handler input context w =
    match lookup (g_id input) (user_id u) (SttJobs w) with
    | inl e => (inl e, w)
    | inr job =>
        let rows :=
          orderBy (asc seg_orderIndex)
            (filter (fun s => String.eqb (seg_jobId s) (job_id job))
               (SttSegments w)) in
        if forallb segment_readable rows
        then (inr (job, rows), w)
        else (inl INTERNAL_SERVER_ERROR, w)
    end.
Proof.
  unfold getSttJobWithSegments_handler. unfold bind at 1.
  rewrite (requireUser_signed_in _ _ _ signed_in). unfold bind at 1.
  rewrite select_SttJobs_get_lookup.
  destruct (lookup _ _ _) as [[]|job]; try reflexivity.
  unfold bind, select_SttSegments_all. cbv zeta.
  now destruct (forallb segment_readable _).
Qed.
End SignedIn.

(** C1: for an authenticated user, Update Job and Get Job With Segments
    fail with NOT_FOUND whenever no Job row has both the given id and the
    requesting user as owner; that covers an id that does not exist and an
    id that belongs to another user alike.  The world is unchanged. *)
Theorem not_found_unless_owned :
  forall context u w,
    locals_user context = Some u ->
    (forall raw input,
       updateSttJob_input raw = Some input ->
       (forall j, In j (SttJobs w) ->
          ~ (job_id j = u_id input /\ job_userId j = user_id u)) ->
       updateSttJob raw context w = (inl NOT_FOUND, w)) /\
    (forall raw input,
       getSttJobWithSegments_input raw = Some input ->
       (forall j, In j (SttJobs w) ->
          ~ (job_id j = g_id input /\ job_userId j = user_id u)) ->
       getSttJobWithSegments raw context w = (inl NOT_FOUND, w)).
Proof.
  intros context u w Hin. split; intros raw input Hparse Hnone.
  - unfold updateSttJob. rewrite (defineAction_parsed _ _ _ _ _ _ Hparse).
    rewrite (updateSttJob_handler_lookup _ _ _ Hin).
    now rewrite (lookup_not_owned _ _ _ Hnone).
  - unfold getSttJobWithSegments.
    rewrite (defineAction_parsed _ _ _ _ _ _ Hparse).
    rewrite (getSttJobWithSegments_handler_lookup _ _ _ Hin).
    now rewrite (lookup_not_owned _ _ _ Hnone).
Qed.

(** Bob asks for alice's job ["uuid-0"], which exists. *)
Lemma not_found_unless_owned_witness :
  (exists j, In j (SttJobs Examples.w1) /\ job_id j = "uuid-0") /\
  updateSttJob (JObj [("id", JStr "uuid-0"); ("status", JStr "failed")])
    Examples.bob Examples.w1 = (inl NOT_FOUND, Examples.w1) /\
  getSttJobWithSegments (JObj [("id", JStr "uuid-0")])
    Examples.bob Examples.w1 = (inl NOT_FOUND, Examples.w1).
Proof.
  assert (Hnone : forall j, In j (SttJobs Examples.w1) ->
            ~ (job_id j = "uuid-0" /\ job_userId j = "bob")).
  { intros j [<-|[]] [_ H]. discriminate H. }
  split; [eexists; split; [left; reflexivity|reflexivity]|].
  split.
  - exact (proj1 (not_found_unless_owned Examples.bob (mkUser "bob")
             Examples.w1 eq_refl)
           (JObj [("id", JStr "uuid-0"); ("status", JStr "failed")])
           _ eq_refl Hnone).
  - exact (proj2 (not_found_unless_owned Examples.bob (mkUser "bob")
             Examples.w1 eq_refl)
           (JObj [("id", JStr "uuid-0")]) _ eq_refl Hnone).
Defined.

(** ** Update Job *)

Lemma updateSttJob_run raw context w :
  updateSttJob raw context w =
    match updateSttJob_input raw with
    | None => (inl BAD_REQUEST, w)
    | Some input =>
        match locals_user context with
        | None => (inl UNAUTHORIZED, w)
        | Some u =>
            match lookup (u_id input) (user_id u) (SttJobs w) with
            | inl e => (inl e, w)
            | inr job =>
                match stored_fields (fieldsToUpdate input job) with
                | None => (inl INTERNAL_SERVER_ERROR, w)
                | Some fields =>
                    (inr (job_id job),
                     set_SttJobs
                       (map (fun j => if String.eqb (job_id j) (job_id job)
                                      then set_fields fields j
                                      else j) (SttJobs w)) w)
                end
            end
        end
    end.
Proof.
  unfold updateSttJob, defineAction.
  destruct (updateSttJob_input raw) as [input|]; [|reflexivity].
  destruct (locals_user context) as [u|] eqn:Hu.
  - now apply updateSttJob_handler_lookup.
  - now apply updateSttJob_handler_signed_out.
Qed.

(** What a successful Update Job call did. *)
Lemma updateSttJob_success raw context w id w' :
  updateSttJob raw context w = (inr id, w') ->
  exists input u job fields,
    updateSttJob_input raw = Some input /\
    locals_user context = Some u /\
    lookup (u_id input) (user_id u) (SttJobs w) = inr job /\
    stored_fields (fieldsToUpdate input job) = Some fields /\
    id = job_id job /\
    w' = set_SttJobs
           (map (fun j => if String.eqb (job_id j) (job_id job)
                          then set_fields fields j
                          else j) (SttJobs w)) w.
Proof.
  rewrite updateSttJob_run.
  destruct (updateSttJob_input raw) as [input|]; [|discriminate].
  destruct (locals_user context) as [u|]; [|discriminate].
  destruct (lookup _ _ _) as [e|job] eqn:Hlook; [discriminate|].
  destruct (stored_fields _) as [fields|] eqn:Hstored; [|discriminate].
  intros [= <- <-]. now exists input, u, job, fields.
Qed.

Lemma updateSttJob_failure raw context w e w' :
  updateSttJob raw context w = (inl e, w') -> w' = w.
Proof.
  rewrite updateSttJob_run.
  destruct (updateSttJob_input raw) as [input|]; [|now intros [= _ <-]].
  destruct (locals_user context) as [u|]; [|now intros [= _ <-]].
  destruct (lookup _ _ _) as [e'|job]; [now intros [= _ <-]|].
  destruct (stored_fields _); [discriminate|now intros [= _ <-]].
Qed.

(** The stored values of a merge: the supplied value, or the job's own. *)
Lemma stored_fields_merge input job fields :
  stored_fields (fieldsToUpdate input job) = Some fields ->
  t_status fields = u_status input ?? job_status job /\
  t_transcriptText fields = u_transcriptText input ?? job_transcriptText job /\
  t_errorMessage fields = u_errorMessage input ?? job_errorMessage job /\
  Some (t_durationSeconds fields) =
    param_opt
      (u_durationSeconds input ?? option_map Num (job_durationSeconds job)) /\
  t_wordCount fields = u_wordCount input ?? job_wordCount job /\
  t_completedAt fields = u_completedAt input ?? job_completedAt job.
Proof.
  unfold stored_fields, fieldsToUpdate. cbn.
  destruct (param_opt _) as [d|]; [|discriminate].
  intros [= <-]. cbn. now repeat split.
Qed.

Lemma stored_fields_own_duration input job fields :
  stored_fields (fieldsToUpdate input job) = Some fields ->
  u_durationSeconds input = None ->
  t_durationSeconds fields = job_durationSeconds job.
Proof.
  intros H Hnone. apply stored_fields_merge in H.
  destruct H as [_ [_ [_ [H _]]]]. rewrite Hnone in H. cbn in H.
  destruct (job_durationSeconds job); cbn in H; congruence.
Qed.

(** The parameters of a merge are refused only for an infinite duration. *)
Lemma stored_fields_refused input job :
  stored_fields (fieldsToUpdate input job) = None ->
  u_durationSeconds input = Some Infinity \/
  u_durationSeconds input = Some NegInfinity.
Proof.
  unfold stored_fields, fieldsToUpdate. cbn.
  destruct (u_durationSeconds input) as [[q| |]|]; cbn; auto; try discriminate.
  destruct (job_durationSeconds job); discriminate.
Qed.

Lemma refine_some {A} (check : A -> bool) (s : schema A) v a :
  refine check s v = Some a -> s v = Some a /\ check a = true.
Proof.
  unfold refine. destruct (s v) as [b|]; [|discriminate].
  destruct (check b) eqn:E; [|discriminate]. now intros [= <-].
Qed.

Lemma default_some {A} (d : A) (s : schema A) v a :
  default d s v = Some a -> a = d \/ s v = Some a.
Proof.
  unfold default. destruct v; auto. intros [= <-]. now left.
Qed.

Lemma optional_some {A} (s : schema A) v o :
  optional s v = Some o -> forall a, o = Some a -> s v = Some a.
Proof.
  unfold optional. intros H a ->.
  destruct v; try discriminate H;
    (destruct (s _) as [x|]; simpl in H; [|discriminate H];
     now injection H as ->).
Qed.

(** The input the Update Job handler receives: a supplied status is one of
    queued, processing, completed, failed, a supplied durationSeconds is not
    negative and a supplied wordCount is a non-negative integer. *)
Lemma updateSttJob_input_valid :
  forall raw input,
    updateSttJob_input raw = Some input ->
    (forall s, u_status input = Some s -> In s statuses) /\
    (forall d, u_durationSeconds input = Some d -> nonnegative d = true) /\
    (forall n, u_wordCount input = Some n -> 0 <= n).
Proof.
  intros raw input. unfold updateSttJob_input.
  destruct raw; try discriminate.
  destruct (z_string _) as [id|]; [|discriminate].
  destruct (optional (z_enum statuses) _) as [status|] eqn:Es; [|discriminate].
  destruct (optional z_string (prop "transcriptText" fields)); [|discriminate].
  destruct (optional z_string (prop "errorMessage" fields)); [|discriminate].
  destruct (optional (refine nonnegative z_number) _) as [duration|] eqn:Ed;
    [|discriminate].
  destruct (optional (refine (Z.leb 0) z_number_int) _) as [count|] eqn:Ec;
    [|discriminate].
  destruct (optional z_date _); [|discriminate].
  intros [= <-]. cbn. split; [|split].
  - intros s Hs. pose proof (optional_some _ _ _ Es s Hs) as H.
    apply refine_some in H. destruct H as [H Hin].
    apply existsb_exists in Hin. destruct Hin as [s' [Hin E]].
    apply String.eqb_eq in E. now subst.
  - intros d Hd. pose proof (optional_some _ _ _ Ed d Hd) as H.
    apply refine_some in H. now destruct H as [_ H].
  - intros n Hn. pose proof (optional_some _ _ _ Ec n Hn) as H.
    apply refine_some in H. destruct H as [_ H]. now apply Z.leb_le in H.
Qed.



(** C10: a successful Update Job call leaves the Segment table as it was
    and keeps every Job row in its place; in each row the columns id,
    userId, inputAudioUrl, audioFormat, language, modelName and createdAt
    are unchanged, and a row whose id is not the returned id is unchanged
    altogether. *)
Theorem updateSttJob_frame :
  forall raw context w id w',
    updateSttJob raw context w = (inr id, w') ->
    SttSegments w' = SttSegments w /\
    List.length (SttJobs w') = List.length (SttJobs w) /\
    forall i j,
      nth_error (SttJobs w) i = Some j ->
      exists j',
        nth_error (SttJobs w') i = Some j' /\
        job_id j' = job_id j /\
        job_userId j' = job_userId j /\
        job_inputAudioUrl j' = job_inputAudioUrl j /\
        job_audioFormat j' = job_audioFormat j /\
        job_language j' = job_language j /\
        job_modelName j' = job_modelName j /\
        job_createdAt j' = job_createdAt j /\
        (job_id j <> id -> j' = j).
Proof.
  intros raw context w id w' Hrun.
  destruct (updateSttJob_success _ _ _ _ _ Hrun)
    as [input [u [job [fields [_ [_ [_ [_ [-> ->]]]]]]]]].
  simpl. split; [reflexivity|]. split; [apply length_map|].
  intros i j Hnth. rewrite nth_error_map, Hnth. simpl.
  eexists. split; [reflexivity|].
  destruct (String.eqb (job_id j) (job_id job)) eqn:E; simpl.
  - apply String.eqb_eq in E. repeat split; trivial. now intros H.
  - repeat split; trivial.
Qed.

Lemma updateSttJob_frame_witness :
  SttSegments
    (snd (updateSttJob
            (JObj [("id", JStr "uuid-0"); ("status", JStr "completed")])
            Examples.alice Examples.w2))
  = SttSegments Examples.w2.
Proof.
  exact (proj1 (updateSttJob_frame
                  (JObj [("id", JStr "uuid-0"); ("status", JStr "completed")])
                  Examples.alice Examples.w2 "uuid-0"
                  (snd (updateSttJob
                          (JObj [("id", JStr "uuid-0");
                                 ("status", JStr "completed")])
                          Examples.alice Examples.w2))
                  eq_refl)).
Defined.

(** ** The error message and the status *)


(** ** Create Job *)

Lemma createSttJob_handler_signed_in input context u w :
  locals_user context = Some u ->
  createSttJob_handler input context w =
    let jobId := uuid_source w (uuid_drawn w) in
    if existsb (fun j => String.eqb (job_id j) jobId) (SttJobs w)
    then (inl INTERNAL_SERVER_ERROR, drawn 1 w)
    else (inr jobId,
          set_SttJobs (SttJobs w ++ [job_values jobId u input (clock w)])
            (drawn 1 w)).
Proof.
  intros Hu. unfold createSttJob_handler, bind.
  rewrite (requireUser_signed_in _ _ _ Hu).
  unfold randomUUID, insert_SttJobs. simpl.
  now destruct (existsb _ (SttJobs w)).
Qed.

Lemma existsb_false_iff {A} (p : A -> bool) (l : list A) :
  existsb p l = false <-> forall x, In x l -> p x = false.
Proof.
  induction l as [|a l IH]; simpl.
  - split; [intros _ x []|reflexivity].
  - rewrite orb_false_iff, IH. split.
    + intros [Ha Hl] x [<-|Hx]; auto.
    + intros H. split; [apply H; now left|intros x Hx; apply H; now right].
Qed.

Lemma find_app_last {A} (p : A -> bool) (l : list A) (x : A) :
  (forall y, In y l -> p y = false) -> p x = true ->
  find p (l ++ [x]) = Some x.
Proof.
  induction l as [|a l IH]; simpl; intros Hl Hx.
  - now rewrite Hx.
  - rewrite (Hl a (or_introl eq_refl)). apply IH; auto.
Qed.

(** C4: for an input that passes the Create Job schema and an authenticated
    user, when the generated UUID is not yet a Job id, the call appends
    exactly one row to the Job table and returns that row's id, which is the
    generated UUID.  The row is owned by the requesting user, has status
    ["queued"], and transcriptText, durationSeconds, wordCount, completedAt
    and errorMessage are empty; the ownership lookup of the returned id then
    finds this row.  The Segment table is unchanged. *)
Theorem createSttJob_inserts_queued_job :
  forall is_url raw input context u w,
    createSttJob_input is_url raw = Some input ->
    locals_user context = Some u ->
    (forall j, In j (SttJobs w) -> job_id j <> uuid_source w (uuid_drawn w)) ->
    exists w' job,
      createSttJob is_url raw context w = (inr (job_id job), w') /\
      job_id job = uuid_source w (uuid_drawn w) /\
      SttJobs w' = SttJobs w ++ [job] /\
      SttSegments w' = SttSegments w /\
      job_userId job = user_id u /\
      job_inputAudioUrl job = c_inputAudioUrl input /\
      job_status job = Some "queued" /\
      job_transcriptText job = None /\
      job_durationSeconds job = None /\
      job_wordCount job = None /\
      job_completedAt job = None /\
      job_errorMessage job = None /\
      find (owned_by (job_id job) (user_id u)) (SttJobs w') = Some job.
Proof.
  intros is_url raw input context u w Hparse Hu Hfresh.
  unfold createSttJob. rewrite (defineAction_parsed _ _ _ _ _ _ Hparse).
  rewrite (createSttJob_handler_signed_in _ _ _ _ Hu). cbv zeta.
  assert (Hno : existsb
            (fun j => String.eqb (job_id j) (uuid_source w (uuid_drawn w)))
            (SttJobs w) = false).
  { apply existsb_false_iff. intros j Hj. apply String.eqb_neq. auto. }
  rewrite Hno.
  eexists. exists (job_values (uuid_source w (uuid_drawn w)) u input (clock w)).
  split; [reflexivity|]. simpl. repeat split.
  apply find_app_last.
  - intros j Hj. unfold owned_by.
    pose proof (Hfresh j Hj) as E. apply String.eqb_neq in E. now rewrite E.
  - unfold owned_by. simpl. now rewrite !String.eqb_refl.
Qed.

Lemma createSttJob_inserts_queued_job_witness :
  exists w' job,
    createSttJob Examples.any_url Examples.create_raw Examples.alice
      Examples.empty_world = (inr "uuid-0", w') /\
    SttJobs w' = [job] /\
    job_userId job = "alice" /\
    job_status job = Some "queued" /\
    job_transcriptText job = None.
Proof.
  destruct (createSttJob_inserts_queued_job Examples.any_url
              Examples.create_raw _ Examples.alice (mkUser "alice")
              Examples.empty_world eq_refl eq_refl)
    as [w' [job [Hrun [Hid [Hjobs [_ [Hu [_ [Hs [Ht _]]]]]]]]]].
  - intros j [].
  - exists w', job. rewrite Hid in Hrun. now repeat split.
Defined.

(** ** Append Segments *)

Lemma mapA_randomUUID jobId segments w :
  mapA (fun segment =>
          id <- randomUUID ;; ret (segment_values id jobId segment))
       segments w
  = (inr (draw_values (uuid_source w) (uuid_drawn w) jobId segments),
     drawn (List.length segments) w).
Proof.
  revert w. induction segments as [|s r IH]; intros w.
  - destruct w; reflexivity.
  - cbn [mapA]. unfold bind at 1 2. unfold randomUUID at 1. cbn [ret].
    unfold bind at 1. rewrite IH. cbn -[draw_values].
    unfold drawn. cbn. now rewrite Nat.add_succ_r.
Qed.

Lemma draw_values_length src n jobId segments :
  List.length (draw_values src n jobId segments) = List.length segments.
Proof.
  revert n. induction segments as [|s r IH]; intros n; simpl; auto.
Qed.

Lemma all_some_map {A} (l : list (option A)) rows :
  all_some l = Some rows -> l = map Some rows.
Proof.
  revert rows. induction l as [|[a|] l IH]; cbn; intros rows.
  - now intros [= <-].
  - destruct (all_some l) as [l'|]; [|discriminate].
    intros [= <-]. cbn. now rewrite (IH l' eq_refl).
  - discriminate.
Qed.

Lemma all_some_of_map {A} (rows : list A) : all_some (map Some rows) = Some rows.
Proof.
  induction rows as [|a rows IH]; cbn; [reflexivity|]. now rewrite IH.
Qed.

(** The rows of a batch, one per descriptor and in the order of the input:
    row [i] comes from descriptor [i] and UUID [n + i]. *)
Lemma drawn_rows src n jobId now segments rows :
  all_some (map (fun v => v now) (draw_values src n jobId segments))
    = Some rows ->
  List.length rows = List.length segments /\
  forall i d,
    nth_error segments i = Some d ->
    exists row,
      nth_error rows i = Some row /\
      segment_values (src (n + i)%nat) jobId d now = Some row.
Proof.
  revert n rows. induction segments as [|d0 r IH]; intros n rows; cbn.
  - intros [= <-]. split; [reflexivity|]. intros [|i] d; discriminate.
  - destruct (segment_values (src n) jobId d0 now) as [row0|] eqn:E0;
      [|discriminate].
    destruct (all_some _) as [rows'|] eqn:Erows; [|discriminate].
    intros [= <-]. destruct (IH _ _ Erows) as [Hlen Hnth].
    split; [cbn; now rewrite Hlen|].
    intros [|i] d; cbn.
    + intros [= <-]. exists row0. now rewrite Nat.add_0_r.
    + intros Hd. destruct (Hnth i d Hd) as [row [Hrow Hval]].
      exists row. now rewrite Nat.add_succ_r.
Qed.

Lemma drawn_rows_in src n jobId now segments rows row :
  all_some (map (fun v => v now) (draw_values src n jobId segments))
    = Some rows ->
  In row rows ->
  exists i d,
    nth_error segments i = Some d /\
    segment_values (src (n + i)%nat) jobId d now = Some row.
Proof.
  revert n rows. induction segments as [|d0 r IH]; intros n rows; cbn.
  - intros [= <-] [].
  - destruct (segment_values (src n) jobId d0 now) as [row0|] eqn:E0;
      [|discriminate].
    destruct (all_some _) as [rows'|] eqn:Erows; [|discriminate].
    intros [= <-] [<-|Hin].
    + exists 0%nat, d0. now rewrite Nat.add_0_r.
    + destruct (IH _ _ Erows Hin) as [i [d [Hd Hval]]].
      exists (S i), d. now rewrite Nat.add_succ_r.
Qed.

(** What [segment_values] puts in a row. *)
Lemma segment_values_some id jobId d now row :
  segment_values id jobId d now = Some row ->
  seg_id row = id /\
  seg_jobId row = jobId /\
  seg_orderIndex row = s_orderIndex d /\
  seg_text row = s_text d /\
  seg_speakerLabel row = s_speakerLabel d /\
  param_opt (s_startTimeSeconds d) = Some (seg_startTimeSeconds row) /\
  param_opt (s_endTimeSeconds d) = Some (seg_endTimeSeconds row) /\
  param_opt (s_confidence d) = Some (seg_confidence row) /\
  seg_createdAt row = now.
Proof.
  unfold segment_values.
  destruct (param_opt (s_startTimeSeconds d)) as [st|]; [|discriminate].
  destruct (param_opt (s_endTimeSeconds d)) as [en|]; [|discriminate].
  destruct (param_opt (s_confidence d)) as [c|]; [|discriminate].
  intros [= <-]. cbn. now repeat split.
Qed.

Lemma drawn_rows_ids src n jobId now segments rows :
  all_some (map (fun v => v now) (draw_values src n jobId segments))
    = Some rows ->
  map seg_id rows = map (fun k => src (n + k)%nat) (seq 0 (List.length segments)).
Proof.
  revert n rows. induction segments as [|d0 r IH]; intros n rows; cbn.
  - now intros [= <-].
  - destruct (segment_values (src n) jobId d0 now) as [row0|] eqn:E0;
      [|discriminate].
    destruct (all_some _) as [rows'|] eqn:Erows; [|discriminate].
    intros [= <-]. cbn. rewrite Nat.add_0_r.
    apply segment_values_some in E0. destruct E0 as [-> _]. f_equal.
    rewrite (IH _ _ Erows), <- seq_shift, map_map.
    apply map_ext. intros k. now rewrite Nat.add_succ_r.
Qed.

Lemma distinct_NoDup ids : distinct ids = true <-> NoDup ids.
Proof.
  induction ids as [|x r IH]; simpl.
  - split; [constructor|reflexivity].
  - rewrite andb_true_iff, negb_true_iff, IH, NoDup_cons_iff.
    assert (existsb (String.eqb x) r = false <-> ~ In x r) as ->; [|tauto].
    rewrite existsb_false_iff. split.
    + intros H Hin. specialize (H x Hin). now rewrite String.eqb_refl in H.
    + intros H y Hy. apply String.eqb_neq. now intros ->.
Qed.

Lemma addSttSegments_input_nonempty raw input :
  addSttSegments_input raw = Some input -> a_segments input <> [].
Proof.
  unfold addSttSegments_input. destruct raw; try discriminate.
  destruct (z_string _); [|discriminate].
  unfold z_array_min, refine.
  destruct (z_array _ _) as [l|]; [|discriminate].
  destruct l; simpl; [discriminate|].
  intros [= <-]. simpl. discriminate.
Qed.

Lemma addSttSegments_run raw context w :
  addSttSegments raw context w =
    match addSttSegments_input raw with
    | None => (inl BAD_REQUEST, w)
    | Some input =>
        match locals_user context with
        | None => (inl UNAUTHORIZED, w)
        | Some u =>
            match lookup (a_jobId input) (user_id u) (SttJobs w) with
            | inl e => (inl e, w)
            | inr job =>
                let n := List.length (a_segments input) in
                match all_some
                        (map (fun v => v (clock w))
                           (draw_values (uuid_source w) (uuid_drawn w)
                              (a_jobId input) (a_segments input))) with
                | None => (inl INTERNAL_SERVER_ERROR, drawn n w)
                | Some rows =>
                    if distinct (map seg_id (SttSegments w ++ rows))
                    then (inr n,
                          set_SttSegments (SttSegments w ++ rows) (drawn n w))
                    else (inl INTERNAL_SERVER_ERROR, drawn n w)
                end
            end
        end
    end.
Proof.
  unfold addSttSegments, defineAction.
  destruct (addSttSegments_input raw) as [input|] eqn:Hparse; [|reflexivity].
  destruct (locals_user context) as [u|] eqn:Hu.
  - unfold addSttSegments_handler. unfold bind at 1.
    rewrite (requireUser_signed_in _ _ _ Hu). unfold bind at 1.
    rewrite select_SttJobs_get_lookup.
    destruct (lookup _ _ _) as [[]|job]; try reflexivity.
    unfold bind at 1. rewrite mapA_randomUUID. cbv zeta.
    pose proof (addSttSegments_input_nonempty _ _ Hparse) as Hne.
    unfold bind, insert_SttSegments. cbn [clock SttSegments drawn].
    rewrite draw_values_length.
    destruct (a_segments input) as [|d r] eqn:Esegs; [now elim Hne|].
    cbn [draw_values].
    destruct (all_some _) as [rows|]; [|reflexivity].
    now destruct (distinct _).
  - now apply addSttSegments_handler_signed_out.
Qed.

Lemma createSttJob_run is_url raw context w :
  createSttJob is_url raw context w =
    match createSttJob_input is_url raw with
    | None => (inl BAD_REQUEST, w)
    | Some input =>
        match locals_user context with
        | None => (inl UNAUTHORIZED, w)
        | Some u =>
            let jobId := uuid_source w (uuid_drawn w) in
            if existsb (fun j => String.eqb (job_id j) jobId) (SttJobs w)
            then (inl INTERNAL_SERVER_ERROR, drawn 1 w)
            else (inr jobId,
                  set_SttJobs
                    (SttJobs w ++ [job_values jobId u input (clock w)])
                    (drawn 1 w))
        end
    end.
Proof.
  unfold createSttJob, defineAction.
  destruct (createSttJob_input is_url raw) as [input|]; [|reflexivity].
  destruct (locals_user context) as [u|] eqn:Hu.
  - now apply createSttJob_handler_signed_in.
  - now apply createSttJob_handler_signed_out.
Qed.

Lemma getSttJobWithSegments_run raw context w :
  getSttJobWithSegments raw context w =
    match getSttJobWithSegments_input raw with
    | None => (inl BAD_REQUEST, w)
    | Some input =>
        match locals_user context with
        | None => (inl UNAUTHORIZED, w)
        | Some u =>
            match lookup (g_id input) (user_id u) (SttJobs w) with
            | inl e => (inl e, w)
            | inr job =>
                let rows :=
                  orderBy (asc seg_orderIndex)
                    (filter (fun s => String.eqb (seg_jobId s) (job_id job))
                       (SttSegments w)) in
                if forallb segment_readable rows
                then (inr (job, rows), w)
                else (inl INTERNAL_SERVER_ERROR, w)
            end
        end
    end.
Proof.
  unfold getSttJobWithSegments, defineAction.
  destruct (getSttJobWithSegments_input raw) as [input|]; [|reflexivity].
  destruct (locals_user context) as [u|] eqn:Hu.
  - now apply getSttJobWithSegments_handler_lookup.
  - now apply getSttJobWithSegments_handler_signed_out.
Qed.

Lemma listMySttJobs_handler_run input context w :
  listMySttJobs_handler input context w =
    match locals_user context with
    | None => (inl UNAUTHORIZED, w)
    | Some u =>
        match sql_integer (l_pageSize input),
              sql_integer
                (round53 (round53 (l_page input - 1) * l_pageSize input)) with
        | Some n, Some k =>
            let items :=
              limit n
                (offset k
                   (orderBy (desc job_createdAt)
                      (filter (fun j => String.eqb (job_userId j) (user_id u))
                         (SttJobs w)))) in
            if forallb job_readable items
            then (inr (items, List.length items), w)
            else (inl INTERNAL_SERVER_ERROR, w)
        | _, _ => (inl INTERNAL_SERVER_ERROR, w)
        end
    end.
Proof.
  unfold listMySttJobs_handler, bind, requireUser.
  destruct (locals_user context) as [u|]; [|reflexivity].
  cbn [ret]. unfold select_SttJobs_page.
  destruct (sql_integer (l_pageSize input)) as [n|]; [|reflexivity].
  destruct (sql_integer _) as [k|]; [|reflexivity].
  cbv zeta. now destruct (forallb job_readable _).
Qed.

Lemma listMySttJobs_run raw context w :
  listMySttJobs raw context w =
    match listMySttJobs_input raw with
    | None => (inl BAD_REQUEST, w)
    | Some input => listMySttJobs_handler input context w
    end.
Proof.
  unfold listMySttJobs, defineAction.
  now destruct (listMySttJobs_input raw).
Qed.

Lemma getSttJobWithSegments_world raw context w :
  snd (getSttJobWithSegments raw context w) = w.
Proof.
  rewrite getSttJobWithSegments_run.
  destruct (getSttJobWithSegments_input raw); [|reflexivity].
  destruct (locals_user context); [|reflexivity].
  destruct (lookup _ _ _); [reflexivity|]. cbv zeta.
  now destruct (forallb segment_readable _).
Qed.

Lemma listMySttJobs_world raw context w :
  snd (listMySttJobs raw context w) = w.
Proof.
  rewrite listMySttJobs_run.
  destruct (listMySttJobs_input raw) as [input|]; [|reflexivity].
  rewrite listMySttJobs_handler_run.
  destruct (locals_user context); [|reflexivity].
  destruct (sql_integer (l_pageSize input)); [|reflexivity].
  destruct (sql_integer _); [|reflexivity].
  cbv zeta. now destruct (forallb job_readable _).
Qed.

(** ** What serving a request does to the tables *)

Lemma update_keeps_ids (f : StoredFields) (id : string) (jobs : list SttJob) :
  map job_id
    (map (fun j => if String.eqb (job_id j) id then set_fields f j else j) jobs)
  = map job_id jobs.
Proof.
  rewrite map_map. apply map_ext. intros j.
  now destruct (String.eqb (job_id j) id).
Qed.

(** The Job table after a request: unchanged, or one row appended by Create
    Job under a new id, or rewritten by a successful Update Job. *)
Lemma serve_SttJobs is_url r context w :
  SttJobs (serve is_url r context w) = SttJobs w \/
  (exists raw input u,
     r = CreateSttJob raw /\
     ~ In (uuid_source w (uuid_drawn w)) (map job_id (SttJobs w)) /\
     SttJobs (serve is_url r context w)
       = SttJobs w ++
         [job_values (uuid_source w (uuid_drawn w)) u input (clock w)]) \/
  (exists raw input u job fields,
     r = UpdateSttJob raw /\
     updateSttJob_input raw = Some input /\
     locals_user context = Some u /\
     lookup (u_id input) (user_id u) (SttJobs w) = inr job /\
     stored_fields (fieldsToUpdate input job) = Some fields /\
     SttJobs (serve is_url r context w)
       = map (fun j => if String.eqb (job_id j) (job_id job)
                       then set_fields fields j
                       else j) (SttJobs w)).
Proof.
  destruct r as [raw|raw|raw|raw|raw]; cbn [serve].
  - rewrite createSttJob_run.
    destruct (createSttJob_input is_url raw) as [input|]; [|now left].
    destruct (locals_user context) as [u|] eqn:Hu; [|now left].
    cbv zeta. destruct (existsb _ (SttJobs w)) eqn:E; [now left|].
    right; left. exists raw, input, u. split; [reflexivity|].
    split; [|reflexivity].
    intros Hin. apply in_map_iff in Hin. destruct Hin as [j [Hj Hin]].
    rewrite existsb_false_iff in E. specialize (E j Hin).
    apply String.eqb_neq in E. contradiction.
  - destruct (updateSttJob raw context w) as [[e|id] w'] eqn:E.
    + left. now rewrite (updateSttJob_failure _ _ _ _ _ E).
    + destruct (updateSttJob_success _ _ _ _ _ E)
        as [input [u [job [fields [Hparse [Hu [Hlook [Hst [_ ->]]]]]]]]].
      right; right. now exists raw, input, u, job, fields.
  - left. rewrite addSttSegments_run.
    destruct (addSttSegments_input raw) as [input|]; [|reflexivity].
    destruct (locals_user context) as [u|]; [|reflexivity].
    destruct (lookup _ _ _); [reflexivity|]. cbv zeta.
    destruct (all_some _); [|reflexivity].
    now destruct (distinct _).
  - left. now rewrite getSttJobWithSegments_world.
  - left. now rewrite listMySttJobs_world.
Qed.

(** The rows a request appends to the Segment table: none, unless it is an
    Append Segments call that passed the schema, came from the owner of the
    target Job, and built each row from one descriptor of its input; the
    ids of the table stay distinct. *)
Lemma serve_new_segments is_url r context w :
  exists rows,
    SttSegments (serve is_url r context w) = SttSegments w ++ rows /\
    (rows <> [] -> distinct (map seg_id (SttSegments w ++ rows)) = true) /\
    forall s, In s rows ->
      exists raw input u job d id,
        r = AddSttSegments raw /\
        addSttSegments_input raw = Some input /\
        locals_user context = Some u /\
        In job (SttJobs w) /\
        job_id job = a_jobId input /\
        job_userId job = user_id u /\
        In d (a_segments input) /\
        segment_values id (a_jobId input) d (clock w) = Some s.
Proof.
  assert (Hsame : forall w', SttSegments w' = SttSegments w ->
            exists rows,
              SttSegments w' = SttSegments w ++ rows /\
              (rows <> [] ->
               distinct (map seg_id (SttSegments w ++ rows)) = true) /\
              forall s, In s rows ->
                exists raw input u job d id,
                  r = AddSttSegments raw /\
                  addSttSegments_input raw = Some input /\
                  locals_user context = Some u /\
                  In job (SttJobs w) /\
                  job_id job = a_jobId input /\
                  job_userId job = user_id u /\
                  In d (a_segments input) /\
                  segment_values id (a_jobId input) d (clock w) = Some s).
  { intros w' E. exists []. rewrite app_nil_r. split; [exact E|].
    split; [intros H; now elim H|intros s []]. }
  destruct r as [raw|raw|raw|raw|raw]; cbn [serve].
  - apply Hsame. rewrite createSttJob_run.
    destruct (createSttJob_input is_url raw); [|reflexivity].
    destruct (locals_user context); [|reflexivity].
    cbv zeta. now destruct (existsb _ (SttJobs w)).
  - apply Hsame. destruct (updateSttJob raw context w) as [[e|id] w'] eqn:E.
    + now rewrite (updateSttJob_failure _ _ _ _ _ E).
    + destruct (updateSttJob_success _ _ _ _ _ E)
        as [input [u [job [fields [_ [_ [_ [_ [_ ->]]]]]]]]]. reflexivity.
  - rewrite addSttSegments_run.
    destruct (addSttSegments_input raw) as [input|] eqn:Hparse;
      [|now apply Hsame].
    destruct (locals_user context) as [u|] eqn:Hu; [|now apply Hsame].
    destruct (lookup _ _ _) as [e|job] eqn:Hlook; [now apply Hsame|].
    cbv zeta. destruct (all_some _) as [rows|] eqn:Erows; [|now apply Hsame].
    destruct (distinct _) eqn:Ed; [|now apply Hsame].
    exists rows. split; [reflexivity|]. split; [now intros _|].
    intros s Hs.
    destruct (drawn_rows_in _ _ _ _ _ _ _ Erows Hs) as [i [d [Hd Hval]]].
    destruct (lookup_found _ _ _ _ Hlook) as [_ [Hin [Hid [Huser _]]]].
    exists raw, input, u, job, d. eexists. repeat split; trivial.
    + now apply nth_error_In in Hd.
    + exact Hval.
  - apply Hsame. now rewrite getSttJobWithSegments_world.
  - apply Hsame. now rewrite listMySttJobs_world.
Qed.

(** X12: the primary keys hold in every world reached from empty tables:
    no two Jobs share an id and no two Segments share an id. *)
Lemma reachable_primary_keys is_url w :
  reachable is_url w ->
  NoDup (map job_id (SttJobs w)) /\ NoDup (map seg_id (SttSegments w)).
Proof.
  induction 1 as [src n now|r context w Hw [IHj IHs]|w now Hw IH]; simpl.
  - split; constructor.
  - split.
    + destruct (serve_SttJobs is_url r context w)
        as [->|[[raw [input [u [_ [Hnew ->]]]]]
               |[raw [input [u [job [fields [_ [_ [_ [_ [_ ->]]]]]]]]]]]];
        trivial.
      * rewrite map_app. simpl.
        apply NoDup_rev in IHj.
        rewrite <- (rev_involutive (_ ++ _)). apply NoDup_rev.
        rewrite rev_app_distr. simpl. constructor; trivial.
        now rewrite <- in_rev.
      * now rewrite update_keeps_ids.
    + destruct (serve_new_segments is_url r context w)
        as [rows [-> [Hd _]]].
      destruct rows as [|r0 rows]; [now rewrite app_nil_r|].
      apply distinct_NoDup, Hd. discriminate.
  - exact IH.
Qed.



(** ** ORDER BY *)

Section OrderByFacts.
Context {A : Type} (leb : A -> A -> bool).
Hypothesis leb_total : forall a b, leb a b = false -> leb b a = true.
Hypothesis leb_trans :
  forall a b c, leb a b = true -> leb b c = true -> leb a c = true.

Let R (a b : A) : Prop := leb a b = true.

Lemma insert_row_perm x l : Permutation (insert_row leb x l) (x :: l).
Proof.
  induction l as [|y r IH]; simpl; [reflexivity|].
  destruct (leb x y); [reflexivity|].
  rewrite IH. apply perm_swap.
Qed.

Lemma orderBy_perm l : Permutation (orderBy leb l) l.
Proof.
  induction l as [|x l IH]; simpl; [reflexivity|].
  rewrite insert_row_perm. now constructor.
Qed.

Lemma insert_row_sorted x l :
  StronglySorted R l -> StronglySorted R (insert_row leb x l).
Proof.
  induction 1 as [|y r Hr IH Hy]; simpl.
  - repeat constructor.
  - destruct (leb x y) eqn:E.
    + constructor; [now constructor|].
      constructor; [exact E|].
      eapply Forall_impl; [|exact Hy]. intros z Hz. exact (leb_trans _ _ _ E Hz).
    + constructor; [exact IH|].
      apply (Permutation_Forall (Permutation_sym (insert_row_perm x r))).
      constructor; [exact (leb_total _ _ E)|exact Hy].
Qed.

Lemma orderBy_sorted l : StronglySorted R (orderBy leb l).
Proof.
  induction l as [|x l IH]; simpl; [constructor|].
  now apply insert_row_sorted.
Qed.
End OrderByFacts.

Lemma StronglySorted_impl {A} (R S : A -> A -> Prop) (l : list A) :
  (forall a b, R a b -> S a b) -> StronglySorted R l -> StronglySorted S l.
Proof.
  intros HRS. induction 1 as [|x l Hl IH Hx]; constructor; trivial.
  eapply Forall_impl; [|exact Hx]. auto.
Qed.

Lemma orderBy_asc_sorted {A} (key : A -> Z) (l : list A) :
  StronglySorted (fun a b => key a <= key b) (orderBy (asc key) l).
Proof.
  apply StronglySorted_impl with (R := fun a b => asc key a b = true).
  - unfold asc. intros a b. apply Z.leb_le.
  - apply orderBy_sorted; unfold asc; intros *.
    + rewrite Z.leb_gt, Z.leb_le. lia.
    + rewrite !Z.leb_le. lia.
Qed.

Lemma orderBy_desc_sorted {A} (key : A -> Z) (l : list A) :
  StronglySorted (fun a b => key b <= key a) (orderBy (desc key) l).
Proof.
  apply StronglySorted_impl with (R := fun a b => desc key a b = true).
  - unfold desc. intros a b. apply Z.leb_le.
  - apply orderBy_sorted; unfold desc; intros *.
    + rewrite Z.leb_gt, Z.leb_le. lia.
    + rewrite !Z.leb_le. lia.
Qed.

Lemma filter_perm {A} (p : A -> bool) (l l' : list A) :
  Permutation l l' -> Permutation (filter p l) (filter p l').
Proof.
  induction 1 as [|x l l' _ IH|x y l|l l' l'' _ IH1 _ IH2]; simpl.
  - reflexivity.
  - destruct (p x); [now constructor|exact IH].
  - destruct (p x), (p y); try reflexivity. apply perm_swap.
  - now transitivity (filter p l').
Qed.

(** Two ascending lists with the same elements are the same list. *)
Lemma sorted_perm_eq (l l' : list Z) :
  StronglySorted Z.le l -> StronglySorted Z.le l' -> Permutation l l' -> l = l'.
Proof.
  revert l'. induction l as [|x l IH]; intros l' Hl Hl' Hp.
  - now apply Permutation_nil in Hp.
  - destruct l' as [|y l'].
    + now apply Permutation_sym, Permutation_nil in Hp.
    + inversion Hl as [|? ? Hsl Hx]; inversion Hl' as [|? ? Hsl' Hy]; subst.
      assert (x = y).
      { rewrite Forall_forall in Hx, Hy.
        assert (Hxin : In x (y :: l'))
          by (apply (Permutation_in _ Hp); now left).
        assert (Hyin : In y (x :: l))
          by (apply (Permutation_in _ (Permutation_sym Hp)); now left).
        destruct Hxin as [->|Hxin]; trivial.
        destruct Hyin as [->|Hyin]; trivial.
        specialize (Hx y Hyin). specialize (Hy x Hxin). lia. }
      subst y. f_equal. apply IH; trivial.
      now apply Permutation_cons_inv with x.
Qed.

Lemma StronglySorted_map {A} (key : A -> Z) (l : list A) :
  StronglySorted (fun a b => key a <= key b) l ->
  StronglySorted Z.le (map key l).
Proof.
  induction 1 as [|x l Hl IH Hx]; simpl; constructor; trivial.
  rewrite Forall_map. exact Hx.
Qed.

(** ** Get Job With Segments *)

(** C5, a run on which the code does not do what the claim says.  The
    schema of Append Segments puts no upper bound on orderIndex and accepts
    2^53, an integer that is not a safe integer; the segment is inserted,
    and from then on Get Job With Segments for that Job fails instead of
    returning its segments. *)
Lemma getSttJobWithSegments_unreadable_orderIndex :
  addSttSegments Examples.add_unsafe_raw Examples.alice Examples.w1
    = (inr 1%nat, Examples.w1_unsafe) /\
  map seg_orderIndex (SttSegments Examples.w1_unsafe) = [2 ^ 53] /\
  getSttJobWithSegments (JObj [("id", JStr "uuid-0")]) Examples.alice
    Examples.w1_unsafe = (inl INTERNAL_SERVER_ERROR, Examples.w1_unsafe).
Proof.
  split; [reflexivity|]. split; reflexivity.
Qed.

Lemma forallb_perm {A} (f : A -> bool) (l l' : list A) :
  Permutation l l' -> forallb f l = forallb f l'.
Proof.
  induction 1 as [|x l l' _ IH|x y l|l l' l'' _ IH1 _ IH2]; cbn.
  - reflexivity.
  - now rewrite IH.
  - now destruct (f x), (f y).
  - now rewrite IH1.
Qed.

(** X28: for a Job the requesting user owns, when the Job row and its
    segments hold no integer of magnitude 2^53 or more and no text with a
    NUL character, Get Job With Segments returns that Job together with
    exactly the Segment rows whose jobId is the Job's id (each as often as
    it is in the table), in ascending order of orderIndex.  The order of
    the rows in the table does not matter: for any rearrangement of the
    Segment table the call returns the same rows with the same sequence of
    order indices. *)
Theorem getSttJobWithSegments_sorted_segments :
  forall raw input context u w job,
    getSttJobWithSegments_input raw = Some input ->
    locals_user context = Some u ->
    NoDup (map job_id (SttJobs w)) ->
    In job (SttJobs w) ->
    job_id job = g_id input ->
    job_userId job = user_id u ->
    job_readable job = true ->
    job_text_clean job = true ->
    (forall s, In s (SttSegments w) -> seg_jobId s = job_id job ->
               segment_readable s = true /\ segment_text_clean s = true) ->
    exists segments,
      getSttJobWithSegments raw context w = (inr (job, segments), w) /\
      Permutation segments
        (filter (fun s => String.eqb (seg_jobId s) (job_id job))
           (SttSegments w)) /\
      (forall s, In s segments <->
                 In s (SttSegments w) /\ seg_jobId s = job_id job) /\
      StronglySorted (fun a b => seg_orderIndex a <= seg_orderIndex b)
        segments /\
      (forall rearranged,
         Permutation (SttSegments w) rearranged ->
         exists segments',
           getSttJobWithSegments raw context (set_SttSegments rearranged w)
             = (inr (job, segments'), set_SttSegments rearranged w) /\
           Permutation segments' segments /\
           map seg_orderIndex segments' = map seg_orderIndex segments).
Proof.
  intros raw input context u w job Hparse Hu Hnd Hin Hid Huser Hread _ Hsegs.
  pose proof (lookup_owned _ _ Hnd Hin Hread) as Hlook.
  rewrite Hid, Huser in Hlook.
  set (p := fun s => String.eqb (seg_jobId s) (job_id job)).
  assert (Hall : forall segs, Permutation (SttSegments w) segs ->
            forallb segment_readable (orderBy (asc seg_orderIndex) (filter p segs))
            = true).
  { intros segs Hperm.
    rewrite (forallb_perm _ _ _ (orderBy_perm _ _)).
    apply forallb_forall. intros s Hs. apply filter_In in Hs.
    destruct Hs as [Hs Hp]. apply String.eqb_eq in Hp.
    apply (Permutation_in _ (Permutation_sym Hperm)) in Hs.
    now apply Hsegs. }
  exists (orderBy (asc seg_orderIndex) (filter p (SttSegments w))).
  split; [|split; [apply orderBy_perm|split; [|split]]].
  - rewrite getSttJobWithSegments_run, Hparse, Hu, Hlook. cbv zeta. fold p.
    now rewrite (Hall _ (Permutation_refl _)).
  - intros s. split.
    + intros Hs. apply (Permutation_in _ (orderBy_perm _ _)) in Hs.
      apply filter_In in Hs. destruct Hs as [Hs Hp].
      split; [exact Hs|]. now apply String.eqb_eq.
    + intros [Hs Hj].
      apply (Permutation_in _ (Permutation_sym (orderBy_perm _ _))).
      apply filter_In. split; [exact Hs|]. now apply String.eqb_eq.
  - apply orderBy_asc_sorted.
  - intros rearranged Hperm.
    rewrite getSttJobWithSegments_run, Hparse, Hu.
    cbn [SttJobs SttSegments set_SttSegments]. rewrite Hlook. cbv zeta.
    fold p. rewrite (Hall _ Hperm).
    exists (orderBy (asc seg_orderIndex) (filter p rearranged)).
    split; [reflexivity|].
    assert (Hp : Permutation
                   (orderBy (asc seg_orderIndex) (filter p rearranged))
                   (orderBy (asc seg_orderIndex) (filter p (SttSegments w)))).
    { rewrite !orderBy_perm. apply filter_perm. now symmetry. }
    split; [exact Hp|].
    apply sorted_perm_eq.
    + apply StronglySorted_map, orderBy_asc_sorted.
    + apply StronglySorted_map, orderBy_asc_sorted.
    + now apply Permutation_map.
Qed.

(** Alice reads her job back: the segments inserted with order indices 2
    and 1 come back as 1, 2. *)
Lemma getSttJobWithSegments_sorted_segments_witness :
  exists segments,
    getSttJobWithSegments (JObj [("id", JStr "uuid-0")]) Examples.alice
      Examples.w2 = (inr (Examples.job0, segments), Examples.w2) /\
    map seg_orderIndex (SttSegments Examples.w2) = [2; 1] /\
    map seg_orderIndex segments = [1; 2].
Proof.
  destruct (getSttJobWithSegments_sorted_segments
              (JObj [("id", JStr "uuid-0")]) _ Examples.alice (mkUser "alice")
              Examples.w2 Examples.job0 eq_refl eq_refl)
    as [segments [Hrun _]].
  - vm_compute. repeat constructor. intros [].
  - left. reflexivity.
  - reflexivity.
  - reflexivity.
  - reflexivity.
  - reflexivity.
  - intros s [<-|[<-|[]]] _; split; reflexivity.
  - exists segments. split; [exact Hrun|]. split; [reflexivity|].
    unfold getSttJobWithSegments, defineAction in Hrun. cbn in Hrun.
    injection Hrun as <-. reflexivity.
Defined.

(** ** List My Jobs *)

Lemma StronglySorted_skipn {A} (R : A -> A -> Prop) (n : nat) (l : list A) :
  StronglySorted R l -> StronglySorted R (skipn n l).
Proof.
  revert l. induction n as [|n IH]; intros l Hl; [exact Hl|].
  destruct l as [|x l]; [constructor|].
  simpl. apply IH. now inversion Hl.
Qed.

Lemma StronglySorted_firstn {A} (R : A -> A -> Prop) (n : nat) (l : list A) :
  StronglySorted R l -> StronglySorted R (firstn n l).
Proof.
  revert l. induction n as [|n IH]; intros l Hl; [constructor|].
  destruct l as [|x l]; [constructor|].
  inversion Hl as [|? ? Hs Hx]; subst. simpl. constructor; [now apply IH|].
  rewrite Forall_forall in *. intros y Hy. apply Hx.
  rewrite <- (firstn_skipn n l). apply in_or_app. now left.
Qed.

Lemma In_skipn {A} (n : nat) (l : list A) x : In x (skipn n l) -> In x l.
Proof.
  intros H. rewrite <- (firstn_skipn n l). apply in_or_app. now right.
Qed.

Lemma In_firstn {A} (n : nat) (l : list A) x : In x (firstn n l) -> In x l.
Proof.
  intros H. rewrite <- (firstn_skipn n l). apply in_or_app. now left.
Qed.

Lemma listMySttJobs_input_range raw input :
  listMySttJobs_input raw = Some input ->
  1 <= l_page input /\ 1 <= l_pageSize input <= 100.
Proof.
  unfold listMySttJobs_input. destruct raw; try discriminate.
  destruct (default 1 _ (prop "page" fields)) as [page|] eqn:Ep;
    [|discriminate].
  destruct (default 20 _ (prop "pageSize" fields)) as [size|] eqn:Es;
    [|discriminate].
  intros [= <-]. cbn [l_page l_pageSize]. split.
  - apply default_some in Ep. destruct Ep as [->|Ep]; [lia|].
    apply refine_some in Ep. destruct Ep as [_ Ep].
    apply Z.ltb_lt in Ep. lia.
  - apply default_some in Es. destruct Es as [->|Es]; [lia|].
    apply refine_some in Es. destruct Es as [Es Hmax].
    apply refine_some in Es. destruct Es as [_ Hmin].
    apply Z.ltb_lt in Hmin. apply Z.leb_le in Hmax. lia.
Qed.

Lemma round53_small z : Z.abs z < 2 ^ 53 -> round53 z = z.
Proof.
  intros H. unfold round53. cbv zeta.
  replace (Z.abs z <? 2 ^ 53) with true; [reflexivity|].
  symmetry. now apply Z.ltb_lt.
Qed.

Lemma sql_integer_small z :
  - 2 ^ 63 < z < 2 ^ 63 -> sql_integer z = Some z.
Proof.
  intros [Hlo Hhi]. unfold sql_integer.
  apply Z.ltb_lt in Hlo, Hhi. now rewrite Hlo, Hhi.
Qed.

Lemma orderBy_length {A} (leb : A -> A -> bool) (l : list A) :
  List.length (orderBy leb l) = List.length l.
Proof. apply Permutation_length, orderBy_perm. Qed.

(** List My Jobs when the offset is computed exactly: the page is cut out
    of the user's jobs, newest first, and then decoded. *)
Lemma listMySttJobs_handler_exact input context u w :
  locals_user context = Some u ->
  1 <= l_page input ->
  1 <= l_pageSize input < 2 ^ 63 ->
  (l_page input - 1) * l_pageSize input < 2 ^ 53 ->
  listMySttJobs_handler input context w =
    let items :=
      firstn (Z.to_nat (l_pageSize input))
        (skipn (Z.to_nat ((l_page input - 1) * l_pageSize input))
           (orderBy (desc job_createdAt)
              (filter (fun j => String.eqb (job_userId j) (user_id u))
                 (SttJobs w)))) in
    if forallb job_readable items
    then (inr (items, List.length items), w)
    else (inl INTERNAL_SERVER_ERROR, w).
Proof.
  intros Hu Hpage Hsize Hoff.
  rewrite listMySttJobs_handler_run, Hu.
  assert (Hsub : round53 (l_page input - 1) = l_page input - 1).
  { apply round53_small. nia. }
  rewrite Hsub, round53_small by lia.
  rewrite !sql_integer_small by lia.
  unfold limit, offset.
  replace (l_pageSize input <? 0) with false; [reflexivity|].
  symmetry. apply Z.ltb_ge. lia.
Qed.

(** C6, a run on which the code does not do what the claim says.  The
    schema of List My Jobs bounds pageSize but puts no upper bound on page:
    page 10^17 with pageSize 100 passes it, the offset is then about 10^19,
    which is not a 64-bit integer, the statement is refused and the call
    fails instead of returning a page. *)
Lemma listMySttJobs_offset_refused :
  listMySttJobs_input Examples.far_page_raw
    = Some (mkListInput (10 ^ 17) 100) /\
  listMySttJobs Examples.far_page_raw Examples.alice Examples.w3
    = (inl INTERNAL_SERVER_ERROR, Examples.w3).
Proof.
  split; reflexivity.
Qed.

(** X29: for an authenticated user and an input that passes the List My
    Jobs schema (page at least 1, pageSize between 1 and 100), when the
    offset (page - 1) * pageSize is below 2^53 and the user's Jobs hold no
    integer of magnitude 2^53 or more and no text with a NUL character, the
    call takes the user's Jobs, newest first, skips (page - 1) * pageSize of
    them and returns the next pageSize at most.  Every returned Job is
    owned by the user, the page is in descending order of createdAt, and
    the count returned is the length of the page: it is smaller than the
    number of the user's Jobs as soon as the user has more than pageSize of
    them. *)
Theorem listMySttJobs_page :
  forall raw input context u w,
    listMySttJobs_input raw = Some input ->
    locals_user context = Some u ->
    (l_page input - 1) * l_pageSize input < 2 ^ 53 ->
    (forall j, In j (SttJobs w) -> job_userId j = user_id u ->
               job_readable j = true /\ job_text_clean j = true) ->
    let mine := filter (fun j => String.eqb (job_userId j) (user_id u))
                  (SttJobs w) in
    exists items newest_first,
      listMySttJobs raw context w = (inr (items, List.length items), w) /\
      Permutation newest_first mine /\
      StronglySorted (fun a b => job_createdAt b <= job_createdAt a)
        newest_first /\
      items = firstn (Z.to_nat (l_pageSize input))
                (skipn (Z.to_nat ((l_page input - 1) * l_pageSize input))
                   newest_first) /\
      (forall j, In j items ->
                 In j (SttJobs w) /\ job_userId j = user_id u) /\
      StronglySorted (fun a b => job_createdAt b <= job_createdAt a) items /\
      1 <= l_page input /\
      1 <= l_pageSize input <= 100 /\
      Z.of_nat (List.length items) <= l_pageSize input /\
      (l_pageSize input < Z.of_nat (List.length mine) ->
       (List.length items < List.length mine)%nat).
Proof.
  intros raw input context u w Hparse Hu Hoff Hclean mine.
  destruct (listMySttJobs_input_range _ _ Hparse) as [Hpage Hsize].
  set (sorted := orderBy (desc job_createdAt) mine).
  set (items := firstn (Z.to_nat (l_pageSize input))
                  (skipn (Z.to_nat ((l_page input - 1) * l_pageSize input))
                     sorted)).
  assert (Hlen : (List.length items <= Z.to_nat (l_pageSize input))%nat)
    by apply firstn_le_length.
  assert (Hitems : forall j, In j items ->
            In j (SttJobs w) /\ job_userId j = user_id u).
  { intros j Hj. apply In_firstn, In_skipn in Hj.
    apply (Permutation_in _ (orderBy_perm _ _)) in Hj.
    apply filter_In in Hj. destruct Hj as [Hj Ho].
    split; [exact Hj|]. now apply String.eqb_eq. }
  exists items, sorted. split; [|split; [|split; [|split; [|split]]]].
  - rewrite listMySttJobs_run, Hparse.
    rewrite (listMySttJobs_handler_exact _ _ _ _ Hu) by lia.
    cbv zeta. fold mine. fold sorted. fold items.
    replace (forallb job_readable items) with true; [reflexivity|].
    symmetry. apply forallb_forall. intros j Hj.
    destruct (Hitems j Hj) as [Hin Hown]. now apply Hclean.
  - apply orderBy_perm.
  - apply orderBy_desc_sorted.
  - reflexivity.
  - exact Hitems.
  - split; [|repeat split; try lia].
    apply StronglySorted_firstn, StronglySorted_skipn, orderBy_desc_sorted.
Qed.

(** Alice, who has two jobs, asks for pages of one: she gets the newer job
    and the count 1. *)
Lemma listMySttJobs_page_witness :
  exists items,
    listMySttJobs (JObj [("pageSize", JNum (1 # 1))]) Examples.alice
      Examples.w3 = (inr (items, List.length items), Examples.w3) /\
    (List.length items < 2)%nat /\
    List.length (SttJobs Examples.w3) = 2%nat.
Proof.
  destruct (listMySttJobs_page (JObj [("pageSize", JNum (1 # 1))]) _
              Examples.alice (mkUser "alice") Examples.w3 eq_refl eq_refl)
    as [items [sorted [Hrun [_ [_ [_ [_ [_ [_ [_ [_ Hless]]]]]]]]]]].
  - reflexivity.
  - intros j [<-|[<-|[]]] _; split; reflexivity.
  - exists items. split; [exact Hrun|]. split; [|reflexivity].
    apply Hless. vm_compute. reflexivity.
Defined.

(** ** Schema validation *)









(** ** A complete run

    Alice creates a job for ["https://x/a.mp3"], marks it as processing,
    appends two segments with order indices 2 and 1, and reads the job back:
    the segments come back in the order 1, 2, the status is processing and
    the transcript is still empty. *)
Example create_update_append_get :
  let w1 := Examples.w1 in
  let w2 :=
    serve Examples.any_url
      (UpdateSttJob (JObj [("id", JStr "uuid-0"); ("status", JStr "processing")]))
      Examples.alice w1 in
  let w3 := serve Examples.any_url (AddSttSegments Examples.add_raw)
              Examples.alice w2 in
  exists job first second,
    getSttJobWithSegments (JObj [("id", JStr "uuid-0")]) Examples.alice w3
      = (inr (job, [first; second]), w3) /\
    seg_orderIndex first = 1 /\ seg_text first = "hello" /\
    seg_orderIndex second = 2 /\ seg_text second = "world" /\
    job_status job = Some "processing" /\
    job_transcriptText job = None.
Proof.
  cbv zeta. do 3 eexists. split; [reflexivity|]. now repeat split.
Qed.


(** ** Append Segments, stored *)

(** C8, a run on which the code does not do what the claim says.  The
    schema of Append Segments bounds confidence but accepts Infinity as a
    start time, since [nonnegative] does; the driver refuses that number as
    a statement parameter, so for this valid input and an owned Job nothing
    is inserted and the call fails. *)
Lemma addSttSegments_infinite_time_refused :
  (exists input,
     addSttSegments_input Examples.add_infinite_raw = Some input /\
     List.length (a_segments input) = 1%nat) /\
  fst (addSttSegments Examples.add_infinite_raw Examples.alice Examples.w1)
    = inl INTERNAL_SERVER_ERROR /\
  SttSegments
    (snd (addSttSegments Examples.add_infinite_raw Examples.alice Examples.w1))
    = SttSegments Examples.w1.
Proof.
  split; [eexists; split; reflexivity|]. split; reflexivity.
Qed.

Lemma param_opt_Num o x : param_opt o = Some x -> option_map Num x = o.
Proof.
  destruct o as [[q| |]|]; cbn; try discriminate; now intros [= <-].
Qed.

Lemma param_opt_storable o :
  storable_opt o = true -> exists x, param_opt o = Some x.
Proof.
  destruct o as [[q| |]|]; cbn; try discriminate; eauto.
Qed.

Lemma segment_values_clean id jobId d now :
  descriptor_clean d = true ->
  exists row, segment_values id jobId d now = Some row.
Proof.
  unfold descriptor_clean. rewrite !andb_true_iff.
  intros [[[[[_ Hs] He] Hc] _] _]. unfold segment_values.
  destruct (param_opt_storable _ Hs) as [st ->].
  destruct (param_opt_storable _ He) as [en ->].
  destruct (param_opt_storable _ Hc) as [c ->]. eauto.
Qed.

Lemma drawn_rows_exist src n jobId now segments :
  (forall d, In d segments -> descriptor_clean d = true) ->
  exists rows,
    all_some (map (fun v => v now) (draw_values src n jobId segments))
      = Some rows.
Proof.
  revert n. induction segments as [|d r IH]; intros n Hclean; cbn.
  - now exists [].
  - destruct (segment_values_clean (src n) jobId d now
                (Hclean d (or_introl eq_refl))) as [row ->].
    destruct (IH (S n) (fun x Hx => Hclean x (or_intror Hx))) as [rows ->].
    now exists (row :: rows).
Qed.

(** X30: for a Job the requesting user owns and an input that passes the
    Append Segments schema, when the Job row is readable, the numbers of
    the descriptors are finite and below 2^53 where integral, their text
    has no NUL character, and the UUIDs generated for the batch are
    distinct from each other and from the ids already in the Segment table,
    the call appends one row per descriptor, in input order, and returns the
    number of descriptors.  Row [i] carries the [i]-th generated UUID as id,
    the target Job's id as jobId, and the descriptor's orderIndex, text,
    start and end time, speaker label and confidence as given.  The Job
    table is unchanged. *)
Theorem addSttSegments_inserts_each :
  forall raw input context u w job,
    addSttSegments_input raw = Some input ->
    locals_user context = Some u ->
    NoDup (map job_id (SttJobs w)) ->
    In job (SttJobs w) ->
    job_id job = a_jobId input ->
    job_userId job = user_id u ->
    job_readable job = true ->
    (forall d, In d (a_segments input) -> descriptor_clean d = true) ->
    NoDup (map seg_id (SttSegments w) ++
           map (fun k => uuid_source w (uuid_drawn w + k)%nat)
             (seq 0 (List.length (a_segments input)))) ->
    exists w' rows,
      addSttSegments raw context w
        = (inr (List.length (a_segments input)), w') /\
      SttSegments w' = SttSegments w ++ rows /\
      SttJobs w' = SttJobs w /\
      List.length rows = List.length (a_segments input) /\
      forall i d,
        nth_error (a_segments input) i = Some d ->
        exists row,
          nth_error rows i = Some row /\
          seg_id row = uuid_source w (uuid_drawn w + i)%nat /\
          seg_jobId row = job_id job /\
          seg_orderIndex row = s_orderIndex d /\
          seg_text row = s_text d /\
          option_map Num (seg_startTimeSeconds row) = s_startTimeSeconds d /\
          option_map Num (seg_endTimeSeconds row) = s_endTimeSeconds d /\
          seg_speakerLabel row = s_speakerLabel d /\
          option_map Num (seg_confidence row) = s_confidence d.
Proof.
  intros raw input context u w job Hparse Hu Hnd Hin Hid Huser Hread Hclean
    Hfresh.
  pose proof (lookup_owned _ _ Hnd Hin Hread) as Hlook.
  rewrite Hid, Huser in Hlook.
  destruct (drawn_rows_exist (uuid_source w) (uuid_drawn w) (a_jobId input)
              (clock w) _ Hclean) as [rows Hrows].
  destruct (drawn_rows _ _ _ _ _ _ Hrows) as [Hlen Hnth].
  rewrite addSttSegments_run, Hparse, Hu, Hlook. cbv zeta. rewrite Hrows.
  replace (distinct (map seg_id (SttSegments w ++ rows))) with true.
  - eexists. exists rows. split; [reflexivity|]. cbn.
    repeat split; trivial.
    intros i d Hd. destruct (Hnth i d Hd) as [row [Hrow Hval]].
    apply segment_values_some in Hval.
    destruct Hval as [Vid [Vjob [Vi [Vt [Vsp [Vst [Ven [Vc _]]]]]]]].
    exists row. split; [exact Hrow|].
    repeat split; trivial; try congruence; now apply param_opt_Num.
  - symmetry. apply distinct_NoDup. rewrite map_app.
    now rewrite (drawn_rows_ids _ _ _ _ _ _ Hrows).
Qed.

(** Alice appends two segments, with order indices 2 and 1, to her job. *)
Lemma addSttSegments_inserts_each_witness :
  exists w' rows,
    addSttSegments Examples.add_raw Examples.alice Examples.w1
      = (inr 2%nat, w') /\
    SttSegments w' = rows /\
    List.length rows = 2%nat.
Proof.
  destruct (addSttSegments_inserts_each Examples.add_raw _ Examples.alice
              (mkUser "alice") Examples.w1 Examples.job0 eq_refl eq_refl)
    as [w' [rows [Hrun [Hsegs [_ [Hlen _]]]]]].
  - vm_compute. repeat constructor. intros [].
  - left. reflexivity.
  - reflexivity.
  - reflexivity.
  - reflexivity.
  - intros d [<-|[<-|[]]]; reflexivity.
  - apply distinct_NoDup. reflexivity.
  - exists w', rows. repeat split; assumption.
Defined.


(** * Further properties of the actions *)

(** ** Who may do what *)

(** X1: Append Segments by an authenticated user fails with NOT_FOUND when
    no Job row has both the given jobId and the requesting user as owner;
    no segment is inserted and no UUID is drawn. *)
Theorem addSttSegments_not_found_unless_owned :
  forall raw input context u w,
    addSttSegments_input raw = Some input ->
    locals_user context = Some u ->
    (forall j, In j (SttJobs w) ->
       ~ (job_id j = a_jobId input /\ job_userId j = user_id u)) ->
    addSttSegments raw context w = (inl NOT_FOUND, w).
Proof.
  intros raw input context u w Hparse Hu Hnone.
  rewrite addSttSegments_run, Hparse, Hu.
  now rewrite (lookup_not_owned _ _ _ Hnone).
Qed.

(** Bob tries to append to alice's job. *)
Lemma addSttSegments_not_found_unless_owned_witness :
  addSttSegments Examples.add_raw Examples.bob Examples.w1
    = (inl NOT_FOUND, Examples.w1).
Proof.
  apply (addSttSegments_not_found_unless_owned Examples.add_raw _
           Examples.bob (mkUser "bob") Examples.w1 eq_refl eq_refl).
  intros j [<-|[]] [_ H]. discriminate H.
Defined.



(** X3: the two reading operations, Get Job With Segments and List My
    Jobs, leave the world as it was, whatever the input, the caller and the
    outcome. *)
Theorem reads_change_nothing :
  forall raw context w,
    snd (getSttJobWithSegments raw context w) = w /\
    snd (listMySttJobs raw context w) = w.
Proof.
  intros raw context w. split.
  - apply getSttJobWithSegments_world.
  - apply listMySttJobs_world.
Qed.

(** X4: a request without an authenticated user changes nothing, whichever
    operation it names and whether or not its input passes the schema. *)
Theorem signed_out_changes_nothing :
  forall is_url r context w,
    locals_user context = None ->
    serve is_url r context w = w.
Proof.
  intros is_url r context w Hout. destruct r as [raw|raw|raw|raw|raw]; simpl.
  - rewrite createSttJob_run, Hout.
    now destruct (createSttJob_input is_url raw).
  - rewrite updateSttJob_run, Hout. now destruct (updateSttJob_input raw).
  - rewrite addSttSegments_run, Hout. now destruct (addSttSegments_input raw).
  - apply getSttJobWithSegments_world.
  - apply listMySttJobs_world.
Qed.

Lemma signed_out_changes_nothing_witness :
  serve Examples.any_url (AddSttSegments Examples.add_raw)
    Examples.signed_out Examples.w1 = Examples.w1.
Proof.
  exact (signed_out_changes_nothing Examples.any_url
           (AddSttSegments Examples.add_raw) Examples.signed_out Examples.w1
           eq_refl).
Defined.

(** ** What no request does *)

(** X5: a request that ends in an error, of any kind, leaves both tables as
    they were: no operation writes and then fails. *)
Theorem failure_keeps_tables :
  forall is_url raw context w e w',
    (createSttJob is_url raw context w = (inl e, w') ->
     SttJobs w' = SttJobs w /\ SttSegments w' = SttSegments w) /\
    (updateSttJob raw context w = (inl e, w') ->
     SttJobs w' = SttJobs w /\ SttSegments w' = SttSegments w) /\
    (addSttSegments raw context w = (inl e, w') ->
     SttJobs w' = SttJobs w /\ SttSegments w' = SttSegments w) /\
    (getSttJobWithSegments raw context w = (inl e, w') ->
     SttJobs w' = SttJobs w /\ SttSegments w' = SttSegments w) /\
    (listMySttJobs raw context w = (inl e, w') ->
     SttJobs w' = SttJobs w /\ SttSegments w' = SttSegments w).
Proof.
  intros is_url raw context w e w'.
  split; [|split; [|split; [|split]]]; intros H.
  - rewrite createSttJob_run in H.
    destruct (createSttJob_input is_url raw);
      [|injection H as _ <-; now split].
    destruct (locals_user context); [|injection H as _ <-; now split].
    cbv zeta in H. destruct (existsb _ (SttJobs w)); [|discriminate].
    injection H as _ <-. now split.
  - rewrite (updateSttJob_failure _ _ _ _ _ H). now split.
  - rewrite addSttSegments_run in H.
    destruct (addSttSegments_input raw); [|injection H as _ <-; now split].
    destruct (locals_user context); [|injection H as _ <-; now split].
    destruct (lookup _ _ _); [injection H as _ <-; now split|].
    cbv zeta in H. destruct (all_some _); [|injection H as _ <-; now split].
    destruct (distinct _); [discriminate|].
    injection H as _ <-. now split.
  - pose proof (getSttJobWithSegments_world raw context w) as E.
    rewrite H in E. simpl in E. subst. now split.
  - pose proof (listMySttJobs_world raw context w) as E.
    rewrite H in E. simpl in E. subst. now split.
Qed.

(** Bob's update of alice's job fails and changes neither table. *)
Lemma failure_keeps_tables_witness :
  let w' :=
    snd (updateSttJob (JObj [("id", JStr "uuid-0"); ("status", JStr "failed")])
           Examples.bob Examples.w2) in
  SttJobs w' = SttJobs Examples.w2 /\
  SttSegments w' = SttSegments Examples.w2.
Proof.
  exact (proj1 (proj2 (failure_keeps_tables Examples.any_url
                         (JObj [("id", JStr "uuid-0");
                                ("status", JStr "failed")])
                         Examples.bob Examples.w2 NOT_FOUND
                         (snd (updateSttJob
                                 (JObj [("id", JStr "uuid-0");
                                        ("status", JStr "failed")])
                                 Examples.bob Examples.w2))))
           eq_refl).
Defined.

(** X6: the Segment table only grows.  Serving a request keeps every
    existing Segment row, unchanged and in place, and appends rows at most;
    every appended row references a Job that the requesting user owns. *)
Theorem segments_append_only :
  forall is_url r context w,
    exists rows,
      SttSegments (serve is_url r context w) = SttSegments w ++ rows /\
      forall s, In s rows ->
        exists u job,
          locals_user context = Some u /\
          In job (SttJobs w) /\
          job_id job = seg_jobId s /\
          job_userId job = user_id u.
Proof.
  intros is_url r context w.
  destruct (serve_new_segments is_url r context w) as [rows [E [_ Hrows]]].
  exists rows. split; [exact E|].
  intros s Hs.
  destruct (Hrows s Hs)
    as [raw [input [u [job [d [id [_ [_ [Hu [Hin [Hid [Huser [_ Hval]]]]]]]]]]]]].
  apply segment_values_some in Hval. destruct Hval as [_ [Hjob _]].
  exists u, job. repeat split; trivial. congruence.
Qed.

(** The ids in the Job table stay there. *)
Lemma serve_keeps_job_ids is_url r context w id :
  In id (map job_id (SttJobs w)) ->
  In id (map job_id (SttJobs (serve is_url r context w))).
Proof.
  intros Hin.
  destruct (serve_SttJobs is_url r context w)
    as [->|[[raw [input [u [_ [_ ->]]]]]
           |[raw [input [u [job [fields [_ [_ [_ [_ [_ ->]]]]]]]]]]]].
  - exact Hin.
  - rewrite map_app. apply in_or_app. now left.
  - now rewrite update_keeps_ids.
Qed.

(** X7: no request deletes a Job or changes what identifies it.  Every Job
    row is still at its place after the request, with the same id, owner,
    audio reference, format, language, model and creation time. *)
Theorem jobs_never_deleted :
  forall is_url r context w i j,
    nth_error (SttJobs w) i = Some j ->
    exists j',
      nth_error (SttJobs (serve is_url r context w)) i = Some j' /\
      job_id j' = job_id j /\
      job_userId j' = job_userId j /\
      job_inputAudioUrl j' = job_inputAudioUrl j /\
      job_audioFormat j' = job_audioFormat j /\
      job_language j' = job_language j /\
      job_modelName j' = job_modelName j /\
      job_createdAt j' = job_createdAt j.
Proof.
  intros is_url r context w i j Hnth.
  destruct (serve_SttJobs is_url r context w)
    as [->|[[raw [input [u [_ [_ ->]]]]]
           |[raw [input [u [job [fields [_ [_ [_ [_ [_ ->]]]]]]]]]]]].
  - now exists j.
  - exists j. rewrite nth_error_app1; [now repeat split|].
    apply nth_error_Some. congruence.
  - rewrite nth_error_map, Hnth. simpl. eexists. split; [reflexivity|].
    now destruct (String.eqb (job_id j) (job_id job)).
Qed.

Lemma jobs_never_deleted_witness :
  exists j',
    nth_error
      (SttJobs
         (serve Examples.any_url
            (UpdateSttJob (JObj [("id", JStr "uuid-0");
                                 ("status", JStr "failed")]))
            Examples.alice Examples.w2)) 0 = Some j' /\
    job_userId j' = "alice" /\
    job_inputAudioUrl j' = "https://x/a.mp3".
Proof.
  destruct (jobs_never_deleted Examples.any_url
              (UpdateSttJob (JObj [("id", JStr "uuid-0");
                                   ("status", JStr "failed")]))
              Examples.alice Examples.w2 0%nat Examples.job0 eq_refl)
    as [j' [Hnth [_ [Hu [Ha _]]]]].
  now exists j'.
Defined.

(** X8: a request cannot touch another user's Job.  Under the primary key
    on the Job id, every Job row that the requesting user does not own (any
    row at all when nobody is signed in) is identical after the request. *)
Theorem other_users_jobs_untouched :
  forall is_url r context w i j,
    NoDup (map job_id (SttJobs w)) ->
    nth_error (SttJobs w) i = Some j ->
    (forall u, locals_user context = Some u -> job_userId j <> user_id u) ->
    nth_error (SttJobs (serve is_url r context w)) i = Some j.
Proof.
  intros is_url r context w i j Hnd Hnth Hother.
  destruct (serve_SttJobs is_url r context w)
    as [->|[[raw [input [u [_ [_ ->]]]]]
           |[raw [input [u [job [fields [_ [_ [Hu [Hlook [_ ->]]]]]]]]]]]].
  - exact Hnth.
  - rewrite nth_error_app1; [exact Hnth|].
    apply nth_error_Some. congruence.
  - rewrite nth_error_map, Hnth. simpl.
    destruct (String.eqb (job_id j) (job_id job)) eqn:E; [|reflexivity].
    apply String.eqb_eq in E.
    destruct (lookup_found _ _ _ _ Hlook) as [_ [Hin [_ [Huser _]]]].
    apply nth_error_In in Hnth.
    rewrite (NoDup_map_In_eq job_id _ _ _ Hnd Hnth Hin E) in Hother.
    now elim (Hother u Hu).
Qed.

(** Bob sends an update for alice's job; her row stays as it is. *)
Lemma other_users_jobs_untouched_witness :
  nth_error
    (SttJobs
       (serve Examples.any_url
          (UpdateSttJob (JObj [("id", JStr "uuid-0");
                               ("status", JStr "failed")]))
          Examples.bob Examples.w2)) 0 = Some Examples.job0.
Proof.
  apply (other_users_jobs_untouched Examples.any_url _ Examples.bob
           Examples.w2 0%nat Examples.job0).
  - vm_compute. repeat constructor. intros [].
  - reflexivity.
  - intros u [= <-]. discriminate.
Defined.

(** ** What the schemas guarantee to the handlers *)

Lemma parse_all_Forall {A} (s : schema A) items l :
  parse_all s items = Some l ->
  Forall (fun a => exists v, In v items /\ s v = Some a) l.
Proof.
  revert l. induction items as [|v r IH]; simpl; intros l.
  - intros [= <-]. constructor.
  - destruct (s v) as [a|] eqn:Ev; [|discriminate].
    destruct (parse_all s r) as [l'|]; [|discriminate].
    intros [= <-]. constructor.
    + exists v. split; [now left|exact Ev].
    + eapply Forall_impl; [|exact (IH l' eq_refl)].
      intros b [v' [Hin Hv']]. exists v'. split; [now right|exact Hv'].
Qed.

Lemma nonnegative_Num q : nonnegative (Num q) = true -> (0 <= q)%Q.
Proof. cbn. apply Qle_bool_iff. Qed.

Lemma segment_input_valid_one v d :
  segment_input v = Some d ->
  0 < s_orderIndex d /\
  s_text d <> "" /\
  (forall t, s_startTimeSeconds d = Some t -> nonnegative t = true) /\
  (forall t, s_endTimeSeconds d = Some t -> nonnegative t = true) /\
  (forall c, s_confidence d = Some c ->
             num_min (0 # 1) c = true /\ num_max (1 # 1) c = true).
Proof.
  unfold segment_input. destruct v; try discriminate.
  destruct (refine (Z.ltb 0) z_number_int _) as [i|] eqn:Ei; [|discriminate].
  destruct (z_string_min 1 _) as [t|] eqn:Et; [|discriminate].
  destruct (optional _ (prop "startTimeSeconds" fields)) as [st|] eqn:Est;
    [|discriminate].
  destruct (optional _ (prop "endTimeSeconds" fields)) as [en|] eqn:Een;
    [|discriminate].
  destruct (optional z_string (prop "speakerLabel" fields)); [|discriminate].
  destruct (optional _ (prop "confidence" fields)) as [c|] eqn:Ec;
    [|discriminate].
  intros [= <-]. cbn. repeat split.
  - apply refine_some in Ei. destruct Ei as [_ H]. now apply Z.ltb_lt in H.
  - apply refine_some in Et. destruct Et as [_ H].
    intros ->. discriminate H.
  - intros x Hx. pose proof (optional_some _ _ _ Est x Hx) as H.
    apply refine_some in H. now destruct H as [_ H].
  - intros x Hx. pose proof (optional_some _ _ _ Een x Hx) as H.
    apply refine_some in H. now destruct H as [_ H].
  - pose proof (optional_some _ _ _ Ec c0 H) as H'.
    apply refine_some in H'. destruct H' as [H' _].
    apply refine_some in H'. now destruct H' as [_ H'].
  - pose proof (optional_some _ _ _ Ec c0 H) as H'.
    apply refine_some in H'. now destruct H' as [_ H'].
Qed.

(** The input the Append Segments handler receives: the segment list is
    not empty and every segment has a positive orderIndex, a non-empty text,
    start and end times that are not negative and a confidence between 0
    and 1, where these are supplied. *)
Lemma addSttSegments_input_valid :
  forall raw input,
    addSttSegments_input raw = Some input ->
    a_segments input <> [] /\
    forall d, In d (a_segments input) ->
      0 < s_orderIndex d /\
      s_text d <> "" /\
      (forall t, s_startTimeSeconds d = Some t -> nonnegative t = true) /\
      (forall t, s_endTimeSeconds d = Some t -> nonnegative t = true) /\
      (forall c, s_confidence d = Some c ->
                 num_min (0 # 1) c = true /\ num_max (1 # 1) c = true).
Proof.
  intros raw input Hparse.
  split; [exact (addSttSegments_input_nonempty _ _ Hparse)|].
  unfold addSttSegments_input in Hparse. destruct raw; try discriminate.
  destruct (z_string _) as [jobId|]; [|discriminate].
  destruct (z_array_min 1 segment_input _) as [l|] eqn:El; [|discriminate].
  injection Hparse as <-. cbn.
  apply refine_some in El. destruct El as [El _].
  unfold z_array in El. destruct (prop "segments" fields); try discriminate.
  apply parse_all_Forall in El. rewrite Forall_forall in El.
  intros d Hd. destruct (El d Hd) as [v [_ Hv]].
  exact (segment_input_valid_one v d Hv).
Qed.

(** A stored number comes from a finite parameter. *)
Lemma param_opt_stored o q :
  param_opt o = Some (Some q) -> o = Some (Num q).
Proof.
  destruct o as [[x| |]|]; cbn; try discriminate. now intros [= <-].
Qed.

(** ** Invariants of the tables *)

(** X9: in every world reached from empty tables, every Job has a status,
    and it is one of queued, processing, completed, failed; a stored
    durationSeconds is not negative and a stored wordCount is a non-negative
    integer. *)
Theorem reachable_jobs_well_formed :
  forall is_url w,
    reachable is_url w ->
    forall j, In j (SttJobs w) ->
      (exists s, job_status j = Some s /\ In s statuses) /\
      (forall d, job_durationSeconds j = Some d -> (0 <= d)%Q) /\
      (forall n, job_wordCount j = Some n -> 0 <= n).
Proof.
  intros is_url w Hreach.
  induction Hreach as [src n now|r context w Hw IH|w now Hw IH]; simpl.
  - intros j [].
  - intros j' Hj'.
    destruct (serve_SttJobs is_url r context w)
      as [E|[[raw [input [u [_ [_ E]]]]]
            |[raw [input [u [job [fields
                [_ [Hparse [_ [Hlook [Hst E]]]]]]]]]]]];
      rewrite E in Hj'.
    + now apply IH.
    + apply in_app_or in Hj'. destruct Hj' as [Hj'|[<-|[]]]; [now apply IH|].
      cbn. split; [|split; discriminate].
      exists "queued". split; [reflexivity|now left].
    + apply in_map_iff in Hj'. destruct Hj' as [j [<- Hj]].
      destruct (String.eqb (job_id j) (job_id job)); [|now apply IH].
      destruct (lookup_found _ _ _ _ Hlook) as [_ [Hjob _]].
      destruct (IH job Hjob) as [[s [Hs Hin]] [Hd Hn]].
      destruct (updateSttJob_input_valid _ _ Hparse) as [Vs [Vd Vn]].
      destruct (stored_fields_merge _ _ _ Hst) as [Fs [_ [_ [Fd [Fw _]]]]].
      cbn. rewrite Fs, Fw. split; [|split].
      * destruct (u_status input) as [s'|]; cbn.
        -- exists s'. split; [reflexivity|now apply Vs].
        -- now exists s.
      * intros d Ed. rewrite Ed in Fd. symmetry in Fd.
        apply param_opt_stored in Fd.
        destruct (u_durationSeconds input) as [n|] eqn:En; cbn in Fd.
        -- injection Fd as ->. apply nonnegative_Num. now apply Vd.
        -- destruct (job_durationSeconds job) as [d'|] eqn:Ed';
             [|discriminate]. cbn in Fd. injection Fd as ->. now apply Hd.
      * destruct (u_wordCount input) as [n'|]; cbn.
        -- intros n [= <-]. now apply Vn.
        -- exact Hn.
  - exact IH.
Qed.

Lemma reachable_jobs_well_formed_witness :
  exists s, job_status Examples.job0 = Some s /\ In s statuses.
Proof.
  refine (proj1 (reachable_jobs_well_formed Examples.any_url Examples.w2 _
                   Examples.job0 (or_introl eq_refl))).
  unfold Examples.w2, Examples.w1.
  do 2 apply reachable_serve. apply reachable_empty.
Defined.

(** X10: referential integrity.  In every world reached from empty tables,
    every Segment references a Job that is in the Job table. *)
Theorem reachable_segments_reference_jobs :
  forall is_url w,
    reachable is_url w ->
    forall s, In s (SttSegments w) ->
      exists j, In j (SttJobs w) /\ job_id j = seg_jobId s.
Proof.
  intros is_url w Hreach.
  induction Hreach as [src n now|r context w Hw IH|w now Hw IH]; simpl.
  - intros s [].
  - intros s Hs.
    assert (Hid : In (seg_jobId s) (map job_id (SttJobs w))).
    { destruct (serve_new_segments is_url r context w) as [rows [E [_ Hrows]]].
      rewrite E in Hs. apply in_app_or in Hs. destruct Hs as [Hs|Hs].
      - destruct (IH s Hs) as [j [Hj Hid]]. rewrite <- Hid. now apply in_map.
      - destruct (Hrows s Hs)
          as [raw [input [u [job [d [id
               [_ [_ [_ [Hin [Hid [_ [_ Hval]]]]]]]]]]]]].
        apply segment_values_some in Hval. destruct Hval as [_ [-> _]].
        rewrite <- Hid. now apply in_map. }
    apply (serve_keeps_job_ids is_url r context) in Hid.
    apply in_map_iff in Hid. destruct Hid as [j [Hj Hin]]. now exists j.
  - exact IH.
Qed.

Lemma reachable_segments_reference_jobs_witness :
  exists j, In j (SttJobs Examples.w2) /\ job_id j = "uuid-0".
Proof.
  refine (reachable_segments_reference_jobs Examples.any_url Examples.w2 _
            Examples.segment_world (or_introl eq_refl)).
  unfold Examples.w2, Examples.w1.
  do 2 apply reachable_serve. apply reachable_empty.
Defined.

(** X11: in every world reached from empty tables, every Segment has a
    positive orderIndex and a non-empty text; its start and end times,
    where stored, are not negative and its confidence, where stored, lies
    between 0 and 1. *)
Theorem reachable_segments_well_formed :
  forall is_url w,
    reachable is_url w ->
    forall s, In s (SttSegments w) ->
      0 < seg_orderIndex s /\
      seg_text s <> "" /\
      (forall t, seg_startTimeSeconds s = Some t -> (0 <= t)%Q) /\
      (forall t, seg_endTimeSeconds s = Some t -> (0 <= t)%Q) /\
      (forall c, seg_confidence s = Some c -> (0 <= c)%Q /\ (c <= 1)%Q).
Proof.
  intros is_url w Hreach.
  induction Hreach as [src n now|r context w Hw IH|w now Hw IH]; simpl.
  - intros s [].
  - intros s Hs.
    destruct (serve_new_segments is_url r context w) as [rows [E [_ Hrows]]].
    rewrite E in Hs. apply in_app_or in Hs. destruct Hs as [Hs|Hs].
    + now apply IH.
    + destruct (Hrows s Hs)
        as [raw [input [u [job [d [id
             [_ [Hparse [_ [_ [_ [_ [Hd Hval]]]]]]]]]]]]].
      destruct (proj2 (addSttSegments_input_valid _ _ Hparse) d Hd)
        as [Vi [Vt [Vst [Ven Vc]]]].
      apply segment_values_some in Hval.
      destruct Hval as [_ [_ [Ei [Et [_ [Est [Een [Ec _]]]]]]]].
      rewrite Ei, Et. repeat split; trivial.
      * intros t Ht. rewrite Ht in Est. apply param_opt_stored in Est.
        apply nonnegative_Num. now apply Vst.
      * intros t Ht. rewrite Ht in Een. apply param_opt_stored in Een.
        apply nonnegative_Num. now apply Ven.
      * rewrite H in Ec. apply param_opt_stored in Ec.
        destruct (Vc _ Ec) as [Hmin _]. cbn in Hmin.
        now apply Qle_bool_iff in Hmin.
      * rewrite H in Ec. apply param_opt_stored in Ec.
        destruct (Vc _ Ec) as [_ Hmax]. cbn in Hmax.
        now apply Qle_bool_iff in Hmax.
  - exact IH.
Qed.

Lemma reachable_segments_well_formed_witness :
  0 < seg_orderIndex Examples.segment_world /\
  seg_text Examples.segment_world <> "".
Proof.
  assert (Hreach : reachable Examples.any_url Examples.w2).
  { unfold Examples.w2, Examples.w1.
    do 2 apply reachable_serve. apply reachable_empty. }
  destruct (reachable_segments_well_formed Examples.any_url Examples.w2
              Hreach Examples.segment_world (or_introl eq_refl))
    as [Hi [Ht _]].
  now split.
Defined.

Lemma reachable_primary_keys_witness :
  NoDup (map job_id (SttJobs Examples.w3)) /\
  NoDup (map seg_id (SttSegments Examples.w3)).
Proof.
  apply (reachable_primary_keys Examples.any_url Examples.w3).
  unfold Examples.w3. apply reachable_serve.
  apply (reachable_tick Examples.any_url Examples.w2 2000).
  unfold Examples.w2, Examples.w1.
  do 2 apply reachable_serve. apply reachable_empty.
Defined.

(** ** More on Update Job *)

Lemma updateSttJob_owned raw input context u w job :
  updateSttJob_input raw = Some input ->
  locals_user context = Some u ->
  NoDup (map job_id (SttJobs w)) ->
  In job (SttJobs w) ->
  job_id job = u_id input ->
  job_userId job = user_id u ->
  job_readable job = true ->
  updateSttJob raw context w =
    match stored_fields (fieldsToUpdate input job) with
    | None => (inl INTERNAL_SERVER_ERROR, w)
    | Some fields =>
        (inr (job_id job),
         set_SttJobs
           (map (fun j => if String.eqb (job_id j) (job_id job)
                          then set_fields fields j
                          else j) (SttJobs w)) w)
    end.
Proof.
  intros Hparse Hu Hnd Hin Hid Huser Hread.
  pose proof (lookup_owned _ _ Hnd Hin Hread) as Hlook.
  rewrite Hid, Huser in Hlook.
  now rewrite updateSttJob_run, Hparse, Hu, Hlook.
Qed.

Lemma find_map_preserving {A} (p : A -> bool) (g : A -> A) (l : list A) :
  (forall x, p (g x) = p x) ->
  find p (map g l) = option_map g (find p l).
Proof.
  intros Hp. induction l as [|x l IH]; simpl; [reflexivity|].
  rewrite Hp. now destruct (p x).
Qed.

Lemma filter_map_preserving {A} (p : A -> bool) (g : A -> A) (l : list A) :
  (forall x, p (g x) = p x) ->
  filter p (map g l) = map g (filter p l).
Proof.
  intros Hp. induction l as [|x l IH]; simpl; [reflexivity|].
  rewrite Hp. destruct (p x); simpl; now rewrite IH.
Qed.

Lemma nullish_idem {A} (a b : option A) : a ?? (a ?? b) = a ?? b.
Proof. now destruct a. Qed.

(** The parameters of a clean input are taken. *)
Lemma stored_fields_clean input job :
  update_input_clean input = true ->
  exists fields, stored_fields (fieldsToUpdate input job) = Some fields.
Proof.
  unfold update_input_clean. rewrite !andb_true_iff.
  intros [[[[Hd _] _] _] _].
  destruct (stored_fields (fieldsToUpdate input job)) as [fields|] eqn:E;
    [now exists fields|].
  destruct (stored_fields_refused _ _ E) as [H|H]; rewrite H in Hd;
    discriminate Hd.
Qed.

(** A row written from a clean input over a readable row is readable. *)
Lemma merged_readable input job fields x :
  stored_fields (fieldsToUpdate input job) = Some fields ->
  job_readable job = true ->
  update_input_clean input = true ->
  job_readable (set_fields fields x) = true.
Proof.
  intros Hst Hread Hclean.
  destruct (stored_fields_merge _ _ _ Hst) as [_ [_ [_ [Fd [Fw _]]]]].
  unfold update_input_clean in Hclean. rewrite !andb_true_iff in Hclean.
  destruct Hclean as [[[[Hd Hw] _] _] _].
  unfold job_readable in *. cbn [job_durationSeconds job_wordCount set_fields].
  apply andb_true_iff in Hread. destruct Hread as [Rd Rw].
  apply andb_true_iff. split.
  - destruct (u_durationSeconds input) as [[q| |]|]; cbn in Fd, Hd;
      try discriminate Hd.
    + injection Fd as ->. exact Hd.
    + destruct (job_durationSeconds job); cbn in Fd; injection Fd as ->;
        exact Rd.
  - rewrite Fw. now destruct (u_wordCount input).
Qed.

(** X13: Update Job stores what it is given.  For a Job the requesting
    user owns, whose row is readable and whose text has no NUL character,
    and an input whose numbers are finite and below 2^53 where integral and
    whose text has no NUL character, the call succeeds and each of the six
    updatable fields that the input supplies holds the supplied value
    afterwards, whatever it held before. *)
Theorem updateSttJob_stores_supplied :
  forall raw input context u w job,
    updateSttJob_input raw = Some input ->
    locals_user context = Some u ->
    NoDup (map job_id (SttJobs w)) ->
    In job (SttJobs w) ->
    job_id job = u_id input ->
    job_userId job = user_id u ->
    job_readable job = true ->
    job_text_clean job = true ->
    update_input_clean input = true ->
    exists w' job',
      updateSttJob raw context w = (inr (job_id job), w') /\
      In job' (SttJobs w') /\
      job_id job' = job_id job /\
      (forall v, u_status input = Some v -> job_status job' = Some v) /\
      (forall v, u_transcriptText input = Some v ->
                 job_transcriptText job' = Some v) /\
      (forall v, u_errorMessage input = Some v ->
                 job_errorMessage job' = Some v) /\
      (forall v, u_durationSeconds input = Some (Num v) ->
                 job_durationSeconds job' = Some v) /\
      (forall v, u_wordCount input = Some v -> job_wordCount job' = Some v) /\
      (forall v, u_completedAt input = Some v ->
                 job_completedAt job' = Some v).
Proof.
  intros raw input context u w job Hparse Hu Hnd Hin Hid Huser Hread _ Hclean.
  rewrite (updateSttJob_owned _ _ _ _ _ _ Hparse Hu Hnd Hin Hid Huser Hread).
  destruct (stored_fields_clean input job Hclean) as [fields Hst].
  rewrite Hst.
  destruct (stored_fields_merge _ _ _ Hst) as [Fs [Ft [Fe [Fd [Fw Fc]]]]].
  eexists. exists (set_fields fields job).
  split; [reflexivity|]. split.
  - cbn. apply in_map_iff. exists job. now rewrite String.eqb_refl.
  - cbn. rewrite Fs, Ft, Fe, Fw, Fc.
    repeat split; try (intros v ->; reflexivity).
    intros v Hv. rewrite Hv in Fd. cbn in Fd. congruence.
Qed.

(** Alice stores a transcript over the one her job has. *)
Lemma updateSttJob_stores_supplied_witness :
  exists w' job',
    updateSttJob
      (JObj [("id", JStr "uuid-0"); ("transcriptText", JStr "goodbye")])
      Examples.alice Examples.w1_transcribed = (inr "uuid-0", w') /\
    In job' (SttJobs w') /\
    job_transcriptText job' = Some "goodbye".
Proof.
  destruct (updateSttJob_stores_supplied
              (JObj [("id", JStr "uuid-0"); ("transcriptText", JStr "goodbye")])
              _ Examples.alice (mkUser "alice") Examples.w1_transcribed
              Examples.job0_transcribed eq_refl eq_refl)
    as [w' [job' [Hrun [Hin [_ [_ [Ht _]]]]]]].
  - vm_compute. repeat constructor. intros [].
  - left. reflexivity.
  - reflexivity.
  - reflexivity.
  - reflexivity.
  - reflexivity.
  - reflexivity.
  - exists w', job'. split; [exact Hrun|]. split; [exact Hin|].
    exact (Ht "goodbye" eq_refl).
Defined.

(** X14: Update Job cannot empty a field.  Under the primary key on the Job
    id, after a successful call every row still has a value in each of the
    six updatable columns in which it had one. *)
Theorem updateSttJob_never_clears :
  forall raw context w id w' i j j',
    updateSttJob raw context w = (inr id, w') ->
    NoDup (map job_id (SttJobs w)) ->
    nth_error (SttJobs w) i = Some j ->
    nth_error (SttJobs w') i = Some j' ->
    (job_status j <> None -> job_status j' <> None) /\
    (job_transcriptText j <> None -> job_transcriptText j' <> None) /\
    (job_errorMessage j <> None -> job_errorMessage j' <> None) /\
    (job_durationSeconds j <> None -> job_durationSeconds j' <> None) /\
    (job_wordCount j <> None -> job_wordCount j' <> None) /\
    (job_completedAt j <> None -> job_completedAt j' <> None).
Proof.
  intros raw context w id w' i j j' Hrun Hnd Hj Hj'.
  destruct (updateSttJob_success _ _ _ _ _ Hrun)
    as [input [u [job [fields [_ [_ [Hlook [Hst [_ ->]]]]]]]]].
  cbn in Hj'. rewrite nth_error_map, Hj in Hj'. cbn in Hj'.
  injection Hj' as <-.
  destruct (String.eqb (job_id j) (job_id job)) eqn:E; [|tauto].
  apply String.eqb_eq in E.
  destruct (lookup_found _ _ _ _ Hlook) as [_ [Hin _]].
  apply nth_error_In in Hj.
  rewrite (NoDup_map_In_eq job_id _ _ _ Hnd Hj Hin E).
  destruct (stored_fields_merge _ _ _ Hst) as [Fs [Ft [Fe [Fd [Fw Fc]]]]].
  cbn. rewrite Fs, Ft, Fe, Fw, Fc. unfold nullish.
  split; [|split; [|split; [|split; [|split]]]]; intros H;
    try (match goal with
         | |- context [match ?x with _ => _ end] => destruct x
         end; congruence).
  destruct (job_durationSeconds job) as [d|]; [|congruence].
  destruct (u_durationSeconds input) as [[q| |]|]; cbn in Fd;
    try discriminate Fd; injection Fd as ->; discriminate.
Qed.

(** Alice marks her transcribed job as failed; the transcript stays. *)
Lemma updateSttJob_never_clears_witness :
  job_transcriptText
    (nth 0
       (SttJobs
          (snd (updateSttJob
                  (JObj [("id", JStr "uuid-0"); ("status", JStr "failed")])
                  Examples.alice Examples.w1_transcribed)))
       Examples.job0) <> None.
Proof.
  refine (proj1 (proj2 (updateSttJob_never_clears
                          (JObj [("id", JStr "uuid-0");
                                 ("status", JStr "failed")])
                          Examples.alice Examples.w1_transcribed "uuid-0"
                          (snd (updateSttJob
                                  (JObj [("id", JStr "uuid-0");
                                         ("status", JStr "failed")])
                                  Examples.alice Examples.w1_transcribed))
                          0%nat Examples.job0_transcribed
                          (nth 0
                             (SttJobs
                                (snd (updateSttJob
                                        (JObj [("id", JStr "uuid-0");
                                               ("status", JStr "failed")])
                                        Examples.alice
                                        Examples.w1_transcribed)))
                             Examples.job0)
                          eq_refl _ eq_refl eq_refl)) _).
  - vm_compute. repeat constructor. intros [].
  - discriminate.
Defined.

(** X15: an Update Job call that supplies no field changes nothing.  For a
    Job the requesting user owns, whose row is readable and whose text has
    no NUL character, it succeeds, returns the id and leaves the world as
    it was. *)
Theorem updateSttJob_without_fields :
  forall raw input context u w job,
    updateSttJob_input raw = Some input ->
    locals_user context = Some u ->
    NoDup (map job_id (SttJobs w)) ->
    In job (SttJobs w) ->
    job_id job = u_id input ->
    job_userId job = user_id u ->
    job_readable job = true ->
    job_text_clean job = true ->
    u_status input = None ->
    u_transcriptText input = None ->
    u_errorMessage input = None ->
    u_durationSeconds input = None ->
    u_wordCount input = None ->
    u_completedAt input = None ->
    updateSttJob raw context w = (inr (job_id job), w).
Proof.
  intros raw input context u w job Hparse Hu Hnd Hin Hid Huser Hread _
    Hs Ht He Hd Hw Hc.
  rewrite (updateSttJob_owned _ _ _ _ _ _ Hparse Hu Hnd Hin Hid Huser Hread).
  destruct (stored_fields (fieldsToUpdate input job)) as [fields|] eqn:Hst.
  - f_equal.
    assert (Hsame : set_fields fields job = job).
    { destruct (stored_fields_merge _ _ _ Hst) as [Fs [Ft [Fe [_ [Fw Fc]]]]].
      pose proof (stored_fields_own_duration _ _ _ Hst Hd) as Fd.
      rewrite Hs in Fs. rewrite Ht in Ft. rewrite He in Fe.
      rewrite Hw in Fw. rewrite Hc in Fc. cbn in Fs, Ft, Fe, Fw, Fc.
      unfold set_fields. rewrite Fs, Ft, Fe, Fd, Fw, Fc. now destruct job. }
    replace (map _ (SttJobs w)) with (SttJobs w); [now destruct w|].
    symmetry. rewrite <- (map_id (SttJobs w)) at 2.
    apply map_ext_in. intros j Hj.
    destruct (String.eqb (job_id j) (job_id job)) eqn:E; [|reflexivity].
    apply String.eqb_eq in E.
    now rewrite (NoDup_map_In_eq job_id _ _ _ Hnd Hj Hin E).
  - destruct (stored_fields_refused _ _ Hst) as [H|H]; congruence.
Qed.

Lemma updateSttJob_without_fields_witness :
  updateSttJob (JObj [("id", JStr "uuid-0")]) Examples.alice Examples.w2
    = (inr "uuid-0", Examples.w2).
Proof.
  apply (updateSttJob_without_fields (JObj [("id", JStr "uuid-0")]) _
           Examples.alice (mkUser "alice") Examples.w2 Examples.job0
           eq_refl eq_refl); try reflexivity.
  - vm_compute. repeat constructor. intros [].
  - left. reflexivity.
Defined.

(** X16: Update Job is idempotent on inputs that can be read back.  When
    the numbers of the input are finite and below 2^53 where integral,
    sending the same update again after it succeeded succeeds again,
    returns the same id and leaves the world as the first call left it. *)
Theorem updateSttJob_idempotent :
  forall raw input context w id w',
    updateSttJob_input raw = Some input ->
    update_input_clean input = true ->
    updateSttJob raw context w = (inr id, w') ->
    updateSttJob raw context w' = (inr id, w').
Proof.
  intros raw input context w id w' Hparse Hclean Hrun.
  destruct (updateSttJob_success _ _ _ _ _ Hrun)
    as [input' [u [job [fields [Hparse' [Hu [Hlook [Hst [-> ->]]]]]]]]].
  rewrite Hparse in Hparse'. injection Hparse' as <-.
  destruct (lookup_found _ _ _ _ Hlook) as [Hfind [Hin [Hid [Huser Hread]]]].
  set (g := fun j => if String.eqb (job_id j) (job_id job)
                     then set_fields fields j else j).
  assert (Hp : forall x, owned_by (u_id input) (user_id u) (g x)
                         = owned_by (u_id input) (user_id u) x).
  { intros x. unfold g. now destruct (String.eqb (job_id x) (job_id job)). }
  assert (Hlook' : lookup (u_id input) (user_id u) (map g (SttJobs w))
                   = inr (set_fields fields job)).
  { unfold lookup.
    rewrite (filter_map_preserving _ g _ Hp), (find_map_preserving _ g _ Hp).
    rewrite Hfind. cbn [option_map].
    replace (g job) with (set_fields fields job)
      by (unfold g; now rewrite String.eqb_refl).
    replace (forallb job_readable _) with true; [reflexivity|].
    symmetry. apply forallb_forall. intros x Hx.
    apply in_map_iff in Hx. destruct Hx as [x0 [<- Hx0]].
    apply filter_In in Hx0. destruct Hx0 as [_ Hown].
    apply owned_by_true in Hown. destruct Hown as [Hx0 _].
    unfold g. rewrite Hx0, <- Hid, String.eqb_refl.
    exact (merged_readable _ _ _ _ Hst Hread Hclean). }
  assert (HF : stored_fields (fieldsToUpdate input (set_fields fields job))
               = Some fields).
  { destruct (stored_fields_merge _ _ _ Hst) as [Fs [Ft [Fe [Fd [Fw Fc]]]]].
    unfold stored_fields, fieldsToUpdate. cbn.
    rewrite Fs, Ft, Fe, Fw, Fc, !nullish_idem.
    assert (Hd : param_opt
                   (u_durationSeconds input ??
                    option_map Num (t_durationSeconds fields))
                 = Some (t_durationSeconds fields)).
    { destruct (u_durationSeconds input) as [n|]; cbn in Fd |- *.
      - now rewrite <- Fd.
      - now destruct (t_durationSeconds fields). }
    rewrite Hd. f_equal.
    destruct fields; cbn in *. now subst. }
  rewrite updateSttJob_run, Hparse, Hu. cbn [SttJobs set_SttJobs]. fold g.
  rewrite Hlook', HF. cbn [job_id set_fields]. fold g. f_equal.
  unfold set_SttJobs. cbn. f_equal.
  rewrite map_map. apply map_ext. intros j. unfold g.
  destruct (String.eqb (job_id j) (job_id job)) eqn:E; cbn.
  - now rewrite E.
  - now rewrite E.
Qed.

Lemma updateSttJob_idempotent_witness :
  updateSttJob
    (JObj [("id", JStr "uuid-0"); ("status", JStr "completed");
           ("transcriptText", JStr "hello world")])
    Examples.alice
    (snd (updateSttJob
            (JObj [("id", JStr "uuid-0"); ("status", JStr "completed");
                   ("transcriptText", JStr "hello world")])
            Examples.alice Examples.w2))
  = (inr "uuid-0",
     snd (updateSttJob
            (JObj [("id", JStr "uuid-0"); ("status", JStr "completed");
                   ("transcriptText", JStr "hello world")])
            Examples.alice Examples.w2)).
Proof.
  exact (updateSttJob_idempotent
           (JObj [("id", JStr "uuid-0"); ("status", JStr "completed");
                  ("transcriptText", JStr "hello world")])
           _ Examples.alice Examples.w2 "uuid-0"
           (snd (updateSttJob
                   (JObj [("id", JStr "uuid-0"); ("status", JStr "completed");
                          ("transcriptText", JStr "hello world")])
                   Examples.alice Examples.w2))
           eq_refl eq_refl eq_refl).
Defined.

(** ** Operations in sequence *)

Lemma getSttJobWithSegments_input_id id :
  getSttJobWithSegments_input (JObj [("id", JStr id)]) = Some (mkGetInput id).
Proof. reflexivity. Qed.



(** X18: two Create Job calls never give the same Job.  When a Create Job
    call succeeds and a later one, with whatever input and caller, succeeds
    on the resulting world, the two returned ids differ and the Job table
    has two rows more. *)
Theorem create_twice_distinct :
  forall is_url raw1 context1 raw2 context2 w id1 w1 id2 w2,
    createSttJob is_url raw1 context1 w = (inr id1, w1) ->
    createSttJob is_url raw2 context2 w1 = (inr id2, w2) ->
    id1 <> id2 /\
    List.length (SttJobs w2) = S (S (List.length (SttJobs w))).
Proof.
  intros is_url raw1 context1 raw2 context2 w id1 w1 id2 w2 H1 H2.
  rewrite createSttJob_run in H1.
  destruct (createSttJob_input is_url raw1) as [input1|]; [|discriminate].
  destruct (locals_user context1) as [u1|]; [|discriminate].
  cbv zeta in H1. destruct (existsb _ (SttJobs w)); [discriminate|].
  injection H1 as <- <-.
  rewrite createSttJob_run in H2.
  destruct (createSttJob_input is_url raw2) as [input2|]; [|discriminate].
  destruct (locals_user context2) as [u2|]; [|discriminate].
  cbv zeta in H2.
  destruct (existsb _ (SttJobs (set_SttJobs _ _))) eqn:E; [discriminate|].
  injection H2 as <- <-. split.
  - rewrite existsb_false_iff in E.
    specialize (E (job_values (uuid_source w (uuid_drawn w)) u1 input1 (clock w))).
    cbn in E. intros Heq. rewrite <- Heq, String.eqb_refl in E.
    discriminate E. apply in_or_app. right. now left.
  - cbn. rewrite !length_app. cbn. lia.
Qed.

Lemma create_twice_distinct_witness :
  "uuid-0" <> "uuid-1" /\
  List.length
    (SttJobs (snd (createSttJob Examples.any_url Examples.create_raw
                     Examples.alice Examples.w1))) = 2%nat.
Proof.
  exact (create_twice_distinct Examples.any_url Examples.create_raw
           Examples.alice Examples.create_raw Examples.alice
           Examples.empty_world "uuid-0" Examples.w1 "uuid-1"
           (snd (createSttJob Examples.any_url Examples.create_raw
                   Examples.alice Examples.w1))
           eq_refl eq_refl).
Defined.

Lemma drawn_rows_columns {A} (f : SegmentInput -> A) (g : SttSegment -> A)
    src n jobId now segments rows :
  (forall id d row, segment_values id jobId d now = Some row -> g row = f d) ->
  all_some (map (fun v => v now) (draw_values src n jobId segments))
    = Some rows ->
  map g rows = map f segments.
Proof.
  intros Hfg. revert n rows.
  induction segments as [|d0 r IH]; intros n rows; cbn.
  - now intros [= <-].
  - destruct (segment_values (src n) jobId d0 now) as [row0|] eqn:E0;
      [|discriminate].
    destruct (all_some _) as [rows'|] eqn:Erows; [|discriminate].
    intros [= <-]. cbn. now rewrite (Hfg _ _ _ E0), (IH _ _ Erows).
Qed.

Lemma param_opt_readable o x :
  param_opt o = Some x -> storable_opt o = true ->
  readable_opt unreadable x = true.
Proof.
  destruct o as [[q| |]|]; cbn; try discriminate; now intros [= <-].
Qed.

(** The row of a descriptor that can be read back is readable. *)
Lemma segment_values_readable id jobId d now row :
  segment_values id jobId d now = Some row ->
  descriptor_clean d = true ->
  segment_readable row = true.
Proof.
  intros Hval Hclean. apply segment_values_some in Hval.
  destruct Hval as [_ [_ [Vi [_ [_ [Vst [Ven [Vc _]]]]]]]].
  unfold descriptor_clean in Hclean. rewrite !andb_true_iff in Hclean.
  destruct Hclean as [[[[[Hi Hs] He] Hc] _] _].
  unfold segment_readable. rewrite Vi, Hi. cbn [andb].
  rewrite (param_opt_readable _ _ Vst Hs), (param_opt_readable _ _ Ven He).
  exact (param_opt_readable _ _ Vc Hc).
Qed.

(** X19: appended segments are read back.  For a Job the requesting user
    owns, when the Job row and the segments it already has hold no integer
    of magnitude 2^53 or more and no text with a NUL character, the numbers
    of the descriptors are finite and below 2^53 where integral and their
    text has no NUL character, Append Segments succeeds and Get Job With
    Segments then returns, in ascending order of orderIndex, the segments
    it returned before together with one new row per descriptor. *)
Theorem append_then_get :
  forall raw input context u w job,
    addSttSegments_input raw = Some input ->
    locals_user context = Some u ->
    NoDup (map job_id (SttJobs w)) ->
    In job (SttJobs w) ->
    job_id job = a_jobId input ->
    job_userId job = user_id u ->
    job_readable job = true ->
    job_text_clean job = true ->
    (forall d, In d (a_segments input) -> descriptor_clean d = true) ->
    (forall s, In s (SttSegments w) -> seg_jobId s = job_id job ->
               segment_readable s = true /\ segment_text_clean s = true) ->
    NoDup (map seg_id (SttSegments w) ++
           map (fun k => uuid_source w (uuid_drawn w + k)%nat)
             (seq 0 (List.length (a_segments input)))) ->
    exists w' rows before after,
      addSttSegments raw context w
        = (inr (List.length (a_segments input)), w') /\
      getSttJobWithSegments (JObj [("id", JStr (job_id job))]) context w
        = (inr (job, before), w) /\
      getSttJobWithSegments (JObj [("id", JStr (job_id job))]) context w'
        = (inr (job, after), w') /\
      map s_orderIndex (a_segments input) = map seg_orderIndex rows /\
      map s_text (a_segments input) = map seg_text rows /\
      Permutation after (before ++ rows) /\
      StronglySorted (fun a b => seg_orderIndex a <= seg_orderIndex b) after.
Proof.
  intros raw input context u w job Hparse Hu Hnd Hin Hid Huser Hread _
    Hclean Hsegs Hfresh.
  pose proof (lookup_owned _ _ Hnd Hin Hread) as Hlook.
  rewrite Huser in Hlook.
  destruct (drawn_rows_exist (uuid_source w) (uuid_drawn w) (a_jobId input)
              (clock w) _ Hclean) as [rows Hrows].
  set (p := fun s => String.eqb (seg_jobId s) (job_id job)).
  assert (Hmine : forall s, In s rows ->
            p s = true /\ segment_readable s = true).
  { intros s Hs. destruct (drawn_rows_in _ _ _ _ _ _ _ Hrows Hs)
      as [i [d [Hd Hval]]].
    split.
    - apply segment_values_some in Hval. destruct Hval as [_ [Hjob _]].
      unfold p. apply String.eqb_eq. congruence.
    - apply (segment_values_readable _ _ _ _ _ Hval).
      apply Hclean. now apply nth_error_In with i. }
  assert (Hold : forallb segment_readable
                   (orderBy (asc seg_orderIndex) (filter p (SttSegments w)))
                 = true).
  { rewrite (forallb_perm _ _ _ (orderBy_perm _ _)).
    apply forallb_forall. intros s Hs. apply filter_In in Hs.
    destruct Hs as [Hs Hp]. apply String.eqb_eq in Hp. now apply Hsegs. }
  assert (Hnew : forallb segment_readable
                   (orderBy (asc seg_orderIndex)
                      (filter p (SttSegments w ++ rows))) = true).
  { rewrite (forallb_perm _ _ _ (orderBy_perm _ _)).
    apply forallb_forall. intros s Hs. apply filter_In in Hs.
    destruct Hs as [Hs Hp]. apply in_app_or in Hs. destruct Hs as [Hs|Hs].
    - apply String.eqb_eq in Hp. now apply Hsegs.
    - now apply Hmine. }
  exists (set_SttSegments (SttSegments w ++ rows)
            (drawn (List.length (a_segments input)) w)), rows,
    (orderBy (asc seg_orderIndex) (filter p (SttSegments w))),
    (orderBy (asc seg_orderIndex) (filter p (SttSegments w ++ rows))).
  split; [|split; [|split; [|split; [|split; [|split]]]]].
  - rewrite addSttSegments_run, Hparse, Hu. rewrite <- Hid, Hlook. cbv zeta.
    rewrite Hid, Hrows.
    replace (distinct (map seg_id (SttSegments w ++ rows))) with true;
      [reflexivity|].
    symmetry. apply distinct_NoDup. rewrite map_app.
    now rewrite (drawn_rows_ids _ _ _ _ _ _ Hrows).
  - rewrite getSttJobWithSegments_run, getSttJobWithSegments_input_id, Hu.
    cbn [g_id]. rewrite Hlook. cbv zeta. fold p. now rewrite Hold.
  - rewrite getSttJobWithSegments_run, getSttJobWithSegments_input_id, Hu.
    cbn [g_id SttJobs SttSegments set_SttSegments drawn]. rewrite Hlook.
    cbv zeta. fold p. now rewrite Hnew.
  - symmetry. apply (drawn_rows_columns _ _ _ _ _ _ _ _ (fun id d row H =>
      proj1 (proj2 (proj2 (segment_values_some _ _ _ _ _ H)))) Hrows).
  - symmetry. apply (drawn_rows_columns _ _ _ _ _ _ _ _ (fun id d row H =>
      proj1 (proj2 (proj2 (proj2 (segment_values_some _ _ _ _ _ H))))) Hrows).
  - rewrite filter_app, (filter_all p rows (fun s Hs => proj1 (Hmine s Hs))),
      !orderBy_perm.
    reflexivity.
  - apply orderBy_asc_sorted.
Qed.

Lemma append_then_get_witness :
  exists w' rows after,
    addSttSegments Examples.add_raw Examples.alice Examples.w1
      = (inr 2%nat, w') /\
    getSttJobWithSegments (JObj [("id", JStr "uuid-0")]) Examples.alice w'
      = (inr (Examples.job0, after), w') /\
    map seg_orderIndex rows = [2; 1] /\
    Permutation after rows.
Proof.
  destruct (append_then_get Examples.add_raw _ Examples.alice
              (mkUser "alice") Examples.w1 Examples.job0 eq_refl eq_refl)
    as [w' [rows [before [after [Hrun [Hb [Ha [Hi [_ [Hp _]]]]]]]]]].
  - vm_compute. repeat constructor. intros [].
  - left. reflexivity.
  - reflexivity.
  - reflexivity.
  - reflexivity.
  - reflexivity.
  - intros d [<-|[<-|[]]]; reflexivity.
  - intros s [].
  - apply distinct_NoDup. reflexivity.
  - exists w', rows, after. split; [exact Hrun|]. split; [exact Ha|].
    split; [now rewrite <- Hi|].
    cbn in Hb. injection Hb as <-. exact Hp.
Defined.

(** X20: an update is read back.  When the numbers of the input are finite
    and below 2^53 where integral, its text and the text of the Job row
    have no NUL character, and the segments of the Job hold no integer of
    magnitude 2^53 or more and no text with a NUL character, then after a
    successful Update Job, Get Job With Segments with the same id by the
    same caller returns the row with each updatable field holding the
    supplied value, or the previous one where none was supplied, and the
    same segments as before the update. *)
Theorem update_then_get :
  forall raw input context w id w',
    updateSttJob_input raw = Some input ->
    update_input_clean input = true ->
    updateSttJob raw context w = (inr id, w') ->
    (forall j, In j (SttJobs w) -> job_id j = id -> job_text_clean j = true) ->
    (forall s, In s (SttSegments w) -> seg_jobId s = id ->
               segment_readable s = true /\ segment_text_clean s = true) ->
    exists job job' segments,
      getSttJobWithSegments (JObj [("id", JStr id)]) context w
        = (inr (job, segments), w) /\
      getSttJobWithSegments (JObj [("id", JStr id)]) context w'
        = (inr (job', segments), w') /\
      job_status job' = u_status input ?? job_status job /\
      job_transcriptText job' =
        u_transcriptText input ?? job_transcriptText job /\
      job_errorMessage job' = u_errorMessage input ?? job_errorMessage job /\
      option_map Num (job_durationSeconds job') =
        u_durationSeconds input ?? option_map Num (job_durationSeconds job) /\
      job_wordCount job' = u_wordCount input ?? job_wordCount job /\
      job_completedAt job' = u_completedAt input ?? job_completedAt job.
Proof.
  intros raw input context w id w' Hparse Hclean Hrun _ Hsegs.
  destruct (updateSttJob_success _ _ _ _ _ Hrun)
    as [input' [u [job [fields [Hparse' [Hu [Hlook [Hst [-> ->]]]]]]]]].
  rewrite Hparse in Hparse'. injection Hparse' as <-.
  destruct (lookup_found _ _ _ _ Hlook) as [Hfind [Hin [Hid [Huser Hread]]]].
  set (g := fun j => if String.eqb (job_id j) (job_id job)
                     then set_fields fields j else j).
  assert (Hp : forall x, owned_by (job_id job) (user_id u) (g x)
                         = owned_by (job_id job) (user_id u) x).
  { intros x. unfold g. now destruct (String.eqb (job_id x) (job_id job)). }
  rewrite <- Hid in Hlook, Hfind.
  assert (Hlook' : lookup (job_id job) (user_id u) (map g (SttJobs w))
                   = inr (set_fields fields job)).
  { unfold lookup.
    rewrite (filter_map_preserving _ g _ Hp), (find_map_preserving _ g _ Hp).
    rewrite Hfind. cbn [option_map].
    replace (g job) with (set_fields fields job)
      by (unfold g; now rewrite String.eqb_refl).
    replace (forallb job_readable _) with true; [reflexivity|].
    symmetry. apply forallb_forall. intros x Hx.
    apply in_map_iff in Hx. destruct Hx as [x0 [<- Hx0]].
    apply filter_In in Hx0. destruct Hx0 as [_ Hown].
    apply owned_by_true in Hown. destruct Hown as [Hx0 _].
    unfold g. rewrite Hx0, String.eqb_refl.
    exact (merged_readable _ _ _ _ Hst Hread Hclean). }
  set (segments :=
         orderBy (asc seg_orderIndex)
           (filter (fun s => String.eqb (seg_jobId s) (job_id job))
              (SttSegments w))).
  assert (Hall : forallb segment_readable segments = true).
  { unfold segments. rewrite (forallb_perm _ _ _ (orderBy_perm _ _)).
    apply forallb_forall. intros s Hs. apply filter_In in Hs.
    destruct Hs as [Hs Hj]. apply String.eqb_eq in Hj. now apply Hsegs. }
  exists job, (set_fields fields job), segments.
  destruct (stored_fields_merge _ _ _ Hst) as [Fs [Ft [Fe [Fd [Fw Fc]]]]].
  split; [|split].
  - rewrite getSttJobWithSegments_run, getSttJobWithSegments_input_id, Hu.
    cbn [g_id]. rewrite Hlook. cbv zeta. fold segments. now rewrite Hall.
  - rewrite getSttJobWithSegments_run, getSttJobWithSegments_input_id, Hu.
    cbn [g_id SttJobs SttSegments set_SttJobs]. fold g.
    rewrite Hlook'. cbv zeta. cbn [job_id set_fields]. fold segments.
    now rewrite Hall.
  - cbn. repeat split; trivial. now apply param_opt_Num.
Qed.

Lemma update_then_get_witness :
  exists job' segments w',
    getSttJobWithSegments (JObj [("id", JStr "uuid-0")]) Examples.alice w'
      = (inr (job', segments), w') /\
    job_status job' = Some "completed" /\
    job_transcriptText job' = None.
Proof.
  destruct (update_then_get
              (JObj [("id", JStr "uuid-0"); ("status", JStr "completed")])
              _ Examples.alice Examples.w2 "uuid-0"
              (snd (updateSttJob
                      (JObj [("id", JStr "uuid-0");
                             ("status", JStr "completed")])
                      Examples.alice Examples.w2))
              eq_refl eq_refl eq_refl)
    as [job [job' [segments [Hb [Ha [Hs [Ht _]]]]]]].
  - intros j [<-|[]] _. reflexivity.
  - intros s [<-|[<-|[]]] _; split; reflexivity.
  - exists job', segments. eexists. split; [exact Ha|].
    cbn in Hb. injection Hb as <- _. now split.
Defined.

(** ** More on List My Jobs *)

(** X21: a page past the end is empty.  When the offset
    (page - 1) * pageSize is below 2^53 and the user owns no more Jobs than
    that, List My Jobs succeeds with no items and the count 0. *)
Theorem listMySttJobs_past_the_end :
  forall raw input context u w,
    listMySttJobs_input raw = Some input ->
    locals_user context = Some u ->
    (l_page input - 1) * l_pageSize input < 2 ^ 53 ->
    Z.of_nat
      (List.length
         (filter (fun j => String.eqb (job_userId j) (user_id u)) (SttJobs w)))
      <= (l_page input - 1) * l_pageSize input ->
    listMySttJobs raw context w = (inr ([], 0%nat), w).
Proof.
  intros raw input context u w Hparse Hu Hoff Hfew.
  destruct (listMySttJobs_input_range _ _ Hparse) as [Hpage Hsize].
  rewrite listMySttJobs_run, Hparse.
  rewrite (listMySttJobs_handler_exact _ _ _ _ Hu) by lia.
  cbv zeta. rewrite skipn_all2; [now rewrite firstn_nil|].
  rewrite orderBy_length. lia.
Qed.

(** Alice has one job; her second page of twenty is empty. *)
Lemma listMySttJobs_past_the_end_witness :
  listMySttJobs (JObj [("page", JNum (2 # 1))]) Examples.alice Examples.w2
    = (inr ([], 0%nat), Examples.w2).
Proof.
  apply (listMySttJobs_past_the_end (JObj [("page", JNum (2 # 1))]) _
           Examples.alice (mkUser "alice") Examples.w2 eq_refl eq_refl).
  - reflexivity.
  - vm_compute. discriminate.
Defined.

(** X22: a first page that is large enough holds everything.  When the
    user's Jobs hold no integer of magnitude 2^53 or more and no text with
    a NUL character, then with page 1 and a pageSize not below the number
    of Jobs the user owns, List My Jobs returns all of the user's Jobs,
    each once, newest first, and the count it returns is their number. *)
Theorem listMySttJobs_first_page_complete :
  forall raw input context u w,
    listMySttJobs_input raw = Some input ->
    locals_user context = Some u ->
    l_page input = 1 ->
    (forall j, In j (SttJobs w) -> job_userId j = user_id u ->
               job_readable j = true /\ job_text_clean j = true) ->
    let mine := filter (fun j => String.eqb (job_userId j) (user_id u))
                  (SttJobs w) in
    Z.of_nat (List.length mine) <= l_pageSize input ->
    exists items,
      listMySttJobs raw context w = (inr (items, List.length mine), w) /\
      Permutation items mine /\
      StronglySorted (fun a b => job_createdAt b <= job_createdAt a) items.
Proof.
  intros raw input context u w Hparse Hu Hpage Hclean mine Hfits.
  destruct (listMySttJobs_input_range _ _ Hparse) as [_ Hsize].
  rewrite listMySttJobs_run, Hparse.
  rewrite (listMySttJobs_handler_exact _ _ _ _ Hu) by (rewrite ?Hpage; lia).
  cbv zeta. rewrite Hpage.
  cbn [Z.sub Z.opp Z.add Z.pos_sub Z.mul Z.to_nat skipn].
  fold mine. rewrite firstn_all2 by (rewrite orderBy_length; lia).
  exists (orderBy (desc job_createdAt) mine).
  rewrite orderBy_length.
  replace (forallb job_readable _) with true.
  - split; [reflexivity|].
    split; [apply orderBy_perm|apply orderBy_desc_sorted].
  - symmetry. rewrite (forallb_perm _ _ _ (orderBy_perm _ _)).
    apply forallb_forall. intros j Hj. apply filter_In in Hj.
    destruct Hj as [Hj Ho]. apply String.eqb_eq in Ho. now apply Hclean.
Qed.

(** Alice has two jobs; the default page shows both, the newer one first. *)
Lemma listMySttJobs_first_page_complete_witness :
  exists items,
    listMySttJobs (JObj []) Examples.alice Examples.w3
      = (inr (items, 2%nat), Examples.w3) /\
    map job_createdAt items = [2000; 1000].
Proof.
  destruct (listMySttJobs_first_page_complete (JObj []) _ Examples.alice
              (mkUser "alice") Examples.w3 eq_refl eq_refl eq_refl)
    as [items [Hrun _]].
  - intros j [<-|[<-|[]]] _; split; reflexivity.
  - vm_compute. discriminate.
  - exists items. split; [exact Hrun|].
    cbn in Hrun. injection Hrun as <-. reflexivity.
Defined.

(** X23: the defaults.  A List My Jobs input that names neither page nor
    pageSize is served exactly as page 1 with pageSize 20. *)
Theorem listMySttJobs_defaults :
  forall o context w,
    prop "page" o = JUndefined ->
    prop "pageSize" o = JUndefined ->
    listMySttJobs (JObj o) context w
    = listMySttJobs (JObj [("page", JNum (1 # 1)); ("pageSize", JNum (20 # 1))])
        context w.
Proof.
  intros o context w Hpage Hsize.
  rewrite !listMySttJobs_run.
  replace (listMySttJobs_input (JObj o)) with (Some (mkListInput 1 20));
    [reflexivity|].
  unfold listMySttJobs_input. now rewrite Hpage, Hsize.
Qed.

Lemma listMySttJobs_defaults_witness :
  listMySttJobs (JObj [("unused", JBool true)]) Examples.alice Examples.w3
  = listMySttJobs (JObj [("page", JNum (1 # 1)); ("pageSize", JNum (20 # 1))])
      Examples.alice Examples.w3.
Proof.
  exact (listMySttJobs_defaults [("unused", JBool true)] Examples.alice
           Examples.w3 eq_refl eq_refl).
Defined.

Lemma firstn_firstn_skipn {A} (a b : nat) (l : list A) :
  firstn a l ++ firstn b (skipn a l) = firstn (a + b) l.
Proof.
  revert l. induction a as [|a IH]; intros l; [reflexivity|].
  destruct l as [|x l]; cbn.
  - now rewrite firstn_nil.
  - now rewrite IH.
Qed.

(** X24: consecutive pages tile the list.  For a fixed pageSize, when the
    offset of the second page, p * pageSize, is below 2^53 and the user's
    Jobs hold no integer of magnitude 2^53 or more and no text with a NUL
    character, page p followed by page p + 1 is the stretch of
    2 * pageSize Jobs that starts after the first (p - 1) * pageSize of the
    user's Jobs, newest first: no Job is skipped and none is repeated
    between the two pages. *)
Theorem listMySttJobs_consecutive_pages :
  forall context u w p s,
    locals_user context = Some u ->
    1 <= p ->
    1 <= s ->
    p * s < 2 ^ 53 ->
    (forall j, In j (SttJobs w) -> job_userId j = user_id u ->
               job_readable j = true /\ job_text_clean j = true) ->
    exists newest_first first second,
      Permutation newest_first
        (filter (fun j => String.eqb (job_userId j) (user_id u)) (SttJobs w)) /\
      StronglySorted (fun a b => job_createdAt b <= job_createdAt a)
        newest_first /\
      listMySttJobs_handler (mkListInput p s) context w
        = (inr (first, List.length first), w) /\
      listMySttJobs_handler (mkListInput (p + 1) s) context w
        = (inr (second, List.length second), w) /\
      first ++ second
        = firstn (Z.to_nat (2 * s))
            (skipn (Z.to_nat ((p - 1) * s)) newest_first).
Proof.
  intros context u w p s Hu Hp Hs Hoff Hclean.
  set (all := orderBy (desc job_createdAt)
                (filter (fun j => String.eqb (job_userId j) (user_id u))
                   (SttJobs w))).
  assert (Hall : forall a b,
            forallb job_readable (firstn a (skipn b all)) = true).
  { intros a b. apply forallb_forall. intros j Hj.
    apply In_firstn, In_skipn in Hj.
    apply (Permutation_in _ (orderBy_perm _ _)) in Hj.
    apply filter_In in Hj. destruct Hj as [Hj Ho].
    apply String.eqb_eq in Ho. now apply Hclean. }
  exists all,
    (firstn (Z.to_nat s) (skipn (Z.to_nat ((p - 1) * s)) all)),
    (firstn (Z.to_nat s) (skipn (Z.to_nat ((p + 1 - 1) * s)) all)).
  split; [apply orderBy_perm|]. split; [apply orderBy_desc_sorted|].
  split; [|split].
  - rewrite (listMySttJobs_handler_exact _ _ _ _ Hu);
      cbn [l_page l_pageSize]; try nia.
    cbv zeta. fold all. now rewrite Hall.
  - rewrite (listMySttJobs_handler_exact _ _ _ _ Hu);
      cbn [l_page l_pageSize]; try nia.
    cbv zeta. fold all. now rewrite Hall.
  - replace (Z.to_nat ((p + 1 - 1) * s))
      with (Z.to_nat s + Z.to_nat ((p - 1) * s))%nat by nia.
    rewrite <- skipn_skipn, firstn_firstn_skipn. f_equal. lia.
Qed.

Lemma listMySttJobs_consecutive_pages_witness :
  exists first second,
    listMySttJobs_handler (mkListInput 1 1) Examples.alice Examples.w3
      = (inr (first, List.length first), Examples.w3) /\
    listMySttJobs_handler (mkListInput 2 1) Examples.alice Examples.w3
      = (inr (second, List.length second), Examples.w3) /\
    map job_createdAt (first ++ second) = [2000; 1000].
Proof.
  destruct (listMySttJobs_consecutive_pages Examples.alice (mkUser "alice")
              Examples.w3 1 1 eq_refl)
    as [all [first [second [_ [_ [H1 [H2 _]]]]]]]; try lia.
  - intros j [<-|[<-|[]]] _; split; reflexivity.
  - exists first, second. split; [exact H1|]. split; [exact H2|].
    cbn in H1, H2. injection H1 as <-. injection H2 as <-. reflexivity.
Defined.

(** ** More input the schemas reject *)









(** X27: Create Job rejects, with the validation failure and no change of
    the world, an input whose inputAudioUrl is missing, is not a string, or
    is a string that is not a URL, and an input in which audioFormat,
    language or modelName is present but is not a string. *)
Theorem createSttJob_rejects :
  forall is_url o context w,
    (forall s, prop "inputAudioUrl" o = JStr s -> is_url s = false) \/
    (exists k, In k ["audioFormat"; "language"; "modelName"] /\
               prop k o <> JUndefined /\
               forall s, prop k o <> JStr s) ->
    createSttJob is_url (JObj o) context w = (inl BAD_REQUEST, w).
Proof.
  intros is_url o context w H. apply defineAction_rejected.
  unfold createSttJob_input.
  assert (Hopt : forall v, v <> JUndefined -> (forall s, v <> JStr s) ->
            optional z_string v = None).
  { intros v Hdef Hstr. unfold optional, z_string.
    destruct v; try reflexivity; [now elim Hdef|now elim (Hstr s)]. }
  destruct H as [Hurl|[k [Hk [Hdef Hstr]]]].
  - unfold refine, z_string. destruct (prop "inputAudioUrl" o); try reflexivity.
    now rewrite (Hurl s eq_refl).
  - destruct (refine is_url z_string _); [|reflexivity].
    destruct Hk as [<-|[<-|[<-|[]]]]; rewrite (Hopt _ Hdef Hstr).
    + reflexivity.
    + now destruct (optional z_string (prop "audioFormat" o)).
    + destruct (optional z_string (prop "audioFormat" o)); [|reflexivity].
      now destruct (optional z_string (prop "language" o)).
Qed.

(** Alice sends no audio reference, and a language that is a number. *)
Lemma createSttJob_rejects_witness :
  createSttJob Examples.any_url (JObj [("language", JStr "en")])
    Examples.alice Examples.w1 = (inl BAD_REQUEST, Examples.w1) /\
  createSttJob Examples.any_url
    (JObj [("inputAudioUrl", JStr "https://x/a.mp3"); ("language", JNum (1 # 1))])
    Examples.alice Examples.w1 = (inl BAD_REQUEST, Examples.w1).
Proof.
  split.
  - apply createSttJob_rejects. left. intros s. discriminate.
  - apply createSttJob_rejects. right. exists "language".
    split; [right; now left|]. split; [discriminate|]. intros s. discriminate.
Defined.
